(** * Streaming service of the shna framework: a shallow embedding

    This development models [packages/core/src/streaming/StreamingService.ts]:
    the quality-tier tables, the master playlist writer, the encoder command
    built by [generateHLS], the in-memory video registry with the asynchronous
    [processVideo] jobs that mutate its records, and the HTTP handlers that
    read the registry and the file system.

    Conventions.
    - A JavaScript [Map] keeps insertion order, so the registry is an
      association list with unique keys, not an unordered finite map.
    - [Video] values are JavaScript objects with identity: the registry, the
      upload handler and each [processVideo] job hold references to the same
      object.  Objects live in a heap (a list indexed by location) and the
      registry maps ids to locations.
    - An [async] function runs synchronously up to its first [await]; a
      suspended call is a [Job] with the program point it waits at.
    - File-system paths are strings as in the source; the file system itself
      is a finite map from absolute, normalised component lists to nodes. *)

From Stdlib Require Import ZArith Lia Ascii.
From stdpp Require Import base tactics option list strings gmap pretty sorting.

Local Open Scope Z_scope.

(** ** Strings *)

Module Str.

Definition nl : string := String "010"%char EmptyString.

Fixpoint starts_with (p s : string) : bool :=
  match p, s with
  | EmptyString, _ => true
  | String a p', String b s' => if decide (a = b) then starts_with p' s' else false
  | String _ _, EmptyString => false
  end.

Fixpoint strip_prefix (p s : string) : option string :=
  match p, s with
  | EmptyString, _ => Some s
  | String a p', String b s' => if decide (a = b) then strip_prefix p' s' else None
  | String _ _, EmptyString => None
  end.

Fixpoint last_char (s : string) : option ascii :=
  match s with
  | EmptyString => None
  | String a EmptyString => Some a
  | String _ s' => last_char s'
  end.

Definition ends_with_char (c : ascii) (s : string) : bool :=
  bool_decide (last_char s = Some c).

Fixpoint mem_char (c : ascii) (s : string) : bool :=
  match s with
  | EmptyString => false
  | String a s' => if decide (a = c) then true else mem_char c s'
  end.

(** [split_on c s] is JavaScript's [s.split(c)] for a one-character
    separator: the pieces between separators, empty pieces included. *)
Fixpoint split_on (c : ascii) (s : string) : list string :=
  match s with
  | EmptyString => [EmptyString]
  | String a s' =>
      if decide (a = c) then EmptyString :: split_on c s'
      else match split_on c s' with
           | [] => [String a EmptyString]
           | w :: ws => String a w :: ws
           end
  end.

(** [join sep l] is [l.join(sep)]. *)
Fixpoint join (sep : string) (l : list string) : string :=
  match l with
  | [] => EmptyString
  | [x] => x
  | x :: l' => x +:+ sep +:+ join sep l'
  end.

Definition digit_of (a : ascii) : option N :=
  N.of_nat <$> Ascii.is_nat a.

(** Reads a maximal run of decimal digits; returns the value read so far
    and the unread rest. *)
Fixpoint read_digits (acc : N) (s : string) : N * string :=
  match s with
  | EmptyString => (acc, EmptyString)
  | String a s' =>
      match digit_of a with
      | Some d => read_digits (acc * 10 + d)%N s'
      | None => (acc, s)
      end
  end.

Definition read_number (s : string) : option (N * string) :=
  match s with
  | EmptyString => None
  | String a _ =>
      match digit_of a with
      | Some _ => Some (read_digits 0%N s)
      | None => None
      end
  end.

End Str.

(** ** JavaScript object literals used as lookup tables

    [tbl[key]] on an object literal finds the literal's own properties and,
    failing that, the members every object inherits from [Object.prototype].
    [tbl[key] || d] then yields [d] only when the lookup is [undefined] (or
    another falsy value). *)

Module Js.

Definition object_prototype_members : list string :=
  [ "constructor"; "__defineGetter__"; "__defineSetter__"; "hasOwnProperty";
    "__lookupGetter__"; "__lookupSetter__"; "isPrototypeOf";
    "propertyIsEnumerable"; "toString"; "valueOf"; "__proto__";
    "toLocaleString" ].

Definition inherited (k : string) : bool :=
  bool_decide (k ∈ object_prototype_members).

Inductive Prop_ (A : Type) : Type :=
| Own (a : A)
| Inherited (name : string)
| Undefined.
Global Arguments Own {A} a.
Global Arguments Inherited {A} name.
Global Arguments Undefined {A}.

Fixpoint own_lookup {A} (tbl : list (string * A)) (k : string) : option A :=
  match tbl with
  | [] => None
  | (k', a) :: tbl' => if decide (k = k') then Some a else own_lookup tbl' k
  end.

Definition get {A} (tbl : list (string * A)) (k : string) : Prop_ A :=
  match own_lookup tbl k with
  | Some a => Own a
  | None => if inherited k then Inherited k else Undefined
  end.

(** The result of [tbl[key] || d]: a value of the table's type, or one of
    the (truthy) members of [Object.prototype]. *)
Inductive Val (A : Type) : Type :=
| Value (a : A)
| ProtoMember (name : string).
Global Arguments Value {A} a.
Global Arguments ProtoMember {A} name.

Definition or_else {A} (truthy : A → bool) (p : Prop_ A) (d : A) : Val A :=
  match p with
  | Own a => if truthy a then Value a else Value d
  | Inherited n => ProtoMember n
  | Undefined => Value d
  end.

Definition truthy_string (s : string) : bool := negb (bool_decide (s = EmptyString)).
Definition truthy_number (n : N) : bool := negb (bool_decide (n = 0%N)).

(** Text of an inherited member inside a template literal: the prototype
    object itself for [__proto__], a native function otherwise. *)
Definition proto_member_text (name : string) : string :=
  if decide (name = "__proto__") then "[object Object]"
  else "function " +:+ (if decide (name = "constructor") then "Object" else name)
       +:+ "() { [native code] }".

Definition show_string (v : Val string) : string :=
  match v with Value s => s | ProtoMember n => proto_member_text n end.

Definition show_number (v : Val N) : string :=
  match v with Value n => pretty n | ProtoMember n => proto_member_text n end.

End Js.

(** ** Quality tiers *)

Definition resolutions : list (string * string) :=
  [ ("240p", "426x240"); ("360p", "640x360"); ("480p", "854x480");
    ("720p", "1280x720"); ("1080p", "1920x1080") ].

Definition getResolution (quality : string) : Js.Val string :=
  Js.or_else Js.truthy_string (Js.get resolutions quality) "640x360".

Definition bitrates : list (string * string) :=
  [ ("240p", "400k"); ("360p", "800k"); ("480p", "1200k");
    ("720p", "2500k"); ("1080p", "5000k") ].

Definition getBitrate (quality : string) : Js.Val string :=
  Js.or_else Js.truthy_string (Js.get bitrates quality) "800k".

Definition bandwidths : list (string * N) :=
  [ ("240p", 500000%N); ("360p", 1000000%N); ("480p", 1500000%N);
    ("720p", 3000000%N); ("1080p", 6000000%N) ].

Definition getBandwidth (quality : string) : Js.Val N :=
  Js.or_else Js.truthy_number (Js.get bandwidths quality) 1000000%N.

(** The encoder reads a bitrate such as ["800k"] as 800 * 1000 bits per
    second (the [k] suffix is the SI multiplier). *)
Definition bitrate_bps (s : string) : option N :=
  match Str.read_number s with
  | Some (n, "k") => Some (n * 1000)%N
  | Some (n, EmptyString) => Some n
  | _ => None
  end.

(** ** Master playlist *)

Definition playlist_header : string :=
  "#EXTM3U" +:+ Str.nl +:+ "#EXT-X-VERSION:3" +:+ Str.nl +:+ Str.nl.

Definition stream_inf_line (quality : string) : string :=
  "#EXT-X-STREAM-INF:BANDWIDTH=" +:+ Js.show_number (getBandwidth quality)
  +:+ ",RESOLUTION=" +:+ Js.show_string (getResolution quality) +:+ Str.nl.

Definition uri_line (quality : string) : string :=
  quality +:+ ".m3u8" +:+ Str.nl +:+ Str.nl.

(** The text accumulated by the [forEach] of [generateMasterPlaylist]: two
    [+=] per quality, in the order of the array. *)
Definition masterPlaylist (qualities : list string) : string :=
  fold_left (λ acc quality, (acc +:+ stream_inf_line quality) +:+ uri_line quality)
            qualities playlist_header.

(** Reading a playlist back: every [#EXT-X-STREAM-INF] line with its
    bandwidth and resolution attributes, and the URI line that follows it. *)
Record Rendition := {
  r_bandwidth : N;
  r_resolution : string;
  r_uri : string
}.

Definition parse_stream_inf (line : string) : option (N * string) :=
  rest ← Str.strip_prefix "#EXT-X-STREAM-INF:BANDWIDTH=" line;
  '(bw, rest') ← Str.read_number rest;
  res ← Str.strip_prefix ",RESOLUTION=" rest';
  Some (bw, res).

Fixpoint parse_entries (lines : list string) : list Rendition :=
  match lines with
  | [] => []
  | l :: rest =>
      match parse_stream_inf l with
      | Some (bw, res) =>
          {| r_bandwidth := bw; r_resolution := res; r_uri := default EmptyString (head rest) |}
          :: parse_entries rest
      | None => parse_entries rest
      end
  end.

Definition listed_renditions (playlist : string) : list Rendition :=
  parse_entries (Str.split_on "010"%char playlist).

(** ** Paths ([path.join], [path.normalize], [path.resolve] of POSIX Node) *)

Module Path.

(** [normalizeString]: the segments between slashes are scanned left to
    right; empty segments and ["."] are dropped, [".."] removes the segment
    before it, or is kept when there is none and the path is relative.
    [stack] holds the segments kept so far, last first. *)
Fixpoint normalize_go (allowAboveRoot : bool) (stack segs : list string) : list string :=
  match segs with
  | [] => reverse stack
  | seg :: segs' =>
      if bool_decide (seg = EmptyString ∨ seg = ".")
      then normalize_go allowAboveRoot stack segs'
      else if bool_decide (seg = "..") then
        match stack with
        | top :: stack' =>
            if bool_decide (top = "..")
            then normalize_go allowAboveRoot
                   (if allowAboveRoot then ".." :: stack else stack) segs'
            else normalize_go allowAboveRoot stack' segs'
        | [] =>
            normalize_go allowAboveRoot
              (if allowAboveRoot then [".."] else []) segs'
        end
      else normalize_go allowAboveRoot (seg :: stack) segs'
  end.

Definition segments (p : string) : list string := Str.split_on "/"%char p.

Definition is_absolute (p : string) : bool := Str.starts_with "/" p.

Definition normalize (p : string) : string :=
  if bool_decide (p = EmptyString) then "."
  else
    let isAbsolute := is_absolute p in
    let trailingSeparator := Str.ends_with_char "/"%char p in
    let body := Str.join "/" (normalize_go (negb isAbsolute) [] (segments p)) in
    if bool_decide (body = EmptyString) then
      if isAbsolute then "/" else if trailingSeparator then "./" else "."
    else
      let body := if trailingSeparator then body +:+ "/" else body in
      if isAbsolute then "/" +:+ body else body.

Definition join (args : list string) : string :=
  match filter (λ a, a ≠ EmptyString) args with
  | [] => "."
  | parts => normalize (Str.join "/" parts)
  end.

(** [path.resolve(p)] in working directory [cwd] (an absolute path), as
    the list of components of the absolute result. *)
Definition resolve (cwd p : string) : list string :=
  normalize_go false []
    (if is_absolute p then segments p else segments cwd ++ segments p).

End Path.

(** ** File system *)

Inductive Node :=
| File (content : string)
| Dir.

Module Fs.

Abbreviation t := (gmap (list string) Node).

(** [fs.existsSync]: a path with a trailing slash names a directory only. *)
Definition existsSync (fs : t) (cwd p : string) : bool :=
  if bool_decide (p = EmptyString) then false
  else match fs !! Path.resolve cwd p with
       | Some Dir => true
       | Some (File _) => negb (Str.ends_with_char "/"%char p)
       | None => false
       end.

Definition ancestors (l : list string) : list (list string) :=
  imap (λ i _, take (S i) l) l.

(** [fs.ensureDir], once its promise has resolved: the directory and its
    ancestors are directories.  (With a file in the way the call rejects,
    which is the other outcome of the promise.) *)
Definition ensureDir (fs : t) (cwd p : string) : t :=
  fold_left (λ acc d, match acc !! d with Some Dir => acc | _ => <[d := Dir]> acc end)
            (ancestors (Path.resolve cwd p)) fs.

(** The directory an absolute path lies in. *)
Definition dirname (abs : list string) : list string := take (length abs - 1) abs.

(** Whether an absolute path is a directory; the root always is. *)
Definition is_directory (fs : t) (abs : list string) : bool :=
  match abs with
  | [] => true
  | _ => match fs !! abs with Some Dir => true | _ => false end
  end.

(** The error with which opening [abs] for writing fails, if it does: the
    path is a directory, or the directory it lies in is missing or is a
    file. *)
Definition write_error (fs : t) (abs : list string) : option string :=
  if is_directory fs abs then Some "EISDIR"
  else if is_directory fs (dirname abs) then None
  else match fs !! dirname abs with
       | Some _ => Some "ENOTDIR"
       | None => Some "ENOENT"
       end.

(** The files once [content] is stored at [p]. *)
Definition put (fs : t) (cwd p content : string) : t :=
  <[Path.resolve cwd p := File content]> fs.

(** [fs.writeFileSync]: [None] when it throws. *)
Definition writeFileSync (fs : t) (cwd p content : string) : option t :=
  match write_error fs (Path.resolve cwd p) with
  | Some _ => None
  | None => Some (put fs cwd p content)
  end.

(** Whether [res.sendFile] treats the file at an absolute path as hidden:
    its name begins with a dot. *)
Definition hidden (abs : list string) : bool :=
  match last abs with
  | Some name => Str.starts_with "." name
  | None => false
  end.

(** [fs.remove]: the node and everything below it. *)
Definition remove (fs : t) (cwd p : string) : t :=
  filter (λ kv, ¬ (Path.resolve cwd p) `prefix_of` kv.1) fs.

(** The bytes of the regular file at an absolute path. *)
Definition read (fs : t) (abs : list string) : option string :=
  match fs !! abs with
  | Some (File content) => Some content
  | _ => None
  end.

(** What [res.sendFile] sends for an absolute path: the bytes of a regular
    file that is not hidden; nothing for a hidden file, a directory or a
    missing path (the request then ends in a 404). *)
Definition sendFile (fs : t) (abs : list string) : option string :=
  if hidden abs then None else read fs abs.

End Fs.
(** ** Configuration ([StreamingConfig]) *)

Record Storage := {
  videosPath : string;
  chunksPath : string
}.

Record Transcoding := {
  t_enabled : bool;
  concurrent : Z
}.

Record StreamingConfig := {
  enabled : bool;
  provider : string;
  formats : option (list string);
  qualities : option (list string);
  storage : option Storage;
  transcoding : option Transcoding
}.

(** The defaults of [ConfigManager]. *)
Definition defaultStreaming : StreamingConfig := {|
  enabled := false;
  provider := "local";
  formats := Some ["hls"];
  qualities := Some ["720p"; "480p"; "360p"];
  storage := Some {| videosPath := "./uploads/videos"; chunksPath := "./uploads/chunks" |};
  transcoding := Some {| t_enabled := true; concurrent := 2 |}
|}.

(** [s || d] on a possibly missing string. *)
Definition string_or (s : option string) (d : string) : string :=
  match s with
  | Some x => if Js.truthy_string x then x else d
  | None => d
  end.

(** ** Video records *)

Inductive Status := Uploading | Processing | Ready | Error.

Global Instance Status_eq_dec : EqDecision Status.
Proof. solve_decision. Defined.

Definition status_string (st : Status) : string :=
  match st with
  | Uploading => "uploading"
  | Processing => "processing"
  | Ready => "ready"
  | Error => "error"
  end.

Record StreamingUrls := {
  hls : option string;
  dash : option string
}.

Module Video.

Record t := {
  id : string;
  title : string;
  description : option string;
  userId : string;
  filename : string;
  originalUrl : string;
  streamingUrls : option StreamingUrls;
  thumbnailUrl : option string;
  duration : option Z;
  size : Z;
  status : Status;
  createdAt : Z;
  updatedAt : Z
}.

Definition set_status (st : Status) (v : t) : t :=
  {| id := id v; title := title v; description := description v; userId := userId v;
     filename := filename v; originalUrl := originalUrl v;
     streamingUrls := streamingUrls v; thumbnailUrl := thumbnailUrl v;
     duration := duration v; size := size v; status := st;
     createdAt := createdAt v; updatedAt := updatedAt v |}.

Definition set_updatedAt (now : Z) (v : t) : t :=
  {| id := id v; title := title v; description := description v; userId := userId v;
     filename := filename v; originalUrl := originalUrl v;
     streamingUrls := streamingUrls v; thumbnailUrl := thumbnailUrl v;
     duration := duration v; size := size v; status := status v;
     createdAt := createdAt v; updatedAt := now |}.

Definition set_duration (d : option Z) (v : t) : t :=
  {| id := id v; title := title v; description := description v; userId := userId v;
     filename := filename v; originalUrl := originalUrl v;
     streamingUrls := streamingUrls v; thumbnailUrl := thumbnailUrl v;
     duration := d; size := size v; status := status v;
     createdAt := createdAt v; updatedAt := updatedAt v |}.

Definition set_streamingUrls (u : StreamingUrls) (v : t) : t :=
  {| id := id v; title := title v; description := description v; userId := userId v;
     filename := filename v; originalUrl := originalUrl v;
     streamingUrls := Some u; thumbnailUrl := thumbnailUrl v;
     duration := duration v; size := size v; status := status v;
     createdAt := createdAt v; updatedAt := updatedAt v |}.

Definition set_thumbnailUrl (u : string) (v : t) : t :=
  {| id := id v; title := title v; description := description v; userId := userId v;
     filename := filename v; originalUrl := originalUrl v;
     streamingUrls := streamingUrls v; thumbnailUrl := Some u;
     duration := duration v; size := size v; status := status v;
     createdAt := createdAt v; updatedAt := updatedAt v |}.

End Video.

(** ** The registry: a JavaScript [Map] with string keys

    Entries are kept in insertion order; [set] on a present key replaces the
    value in place, on a new key appends. *)

Module JsMap.

Definition t (V : Type) := list (string * V).

Fixpoint get {V} (m : t V) (k : string) : option V :=
  match m with
  | [] => None
  | (k', v) :: m' => if decide (k = k') then Some v else get m' k
  end.

Fixpoint set {V} (m : t V) (k : string) (v : V) : t V :=
  match m with
  | [] => [(k, v)]
  | (k', v') :: m' => if decide (k = k') then (k, v) :: m' else (k', v') :: set m' k v
  end.

Definition delete {V} (m : t V) (k : string) : t V :=
  filter (λ kv, kv.1 ≠ k) m.

Definition values {V} (m : t V) : list V := m.*2.

Definition keys {V} (m : t V) : list string := m.*1.

End JsMap.

(** ** Suspended [processVideo] calls *)

Inductive Await :=
| AwaitEnsureDir      (* await fs.ensureDir(outputDir) *)
| AwaitThumbnail      (* await this.generateThumbnail(...) *)
| AwaitMetadata       (* await this.getVideoMetadata(...) *)
| AwaitHLS.           (* await this.generateHLS(...) *)

Global Instance Await_eq_dec : EqDecision Await.
Proof. solve_decision. Defined.

Record Job := {
  job_videoId : string;
  job_video : nat;       (* the [video] object the call holds *)
  job_at : Await
}.

(** How an awaited step ends; [probed] is the duration reported by the
    probe and is read at [AwaitMetadata] only. *)
Inductive Outcome :=
| Resolved (probed : option Z)
| Rejected.

(** ** Service state *)

Record State := {
  heap : list Video.t;
  videos : JsMap.t nat;
  processingQueue : list string;
  jobs : list Job;
  fs : Fs.t
}.

Definition with_heap (h : list Video.t) (s : State) : State :=
  {| heap := h; videos := videos s; processingQueue := processingQueue s;
     jobs := jobs s; fs := fs s |}.

Definition with_videos (m : JsMap.t nat) (s : State) : State :=
  {| heap := heap s; videos := m; processingQueue := processingQueue s;
     jobs := jobs s; fs := fs s |}.

Definition with_jobs (js : list Job) (s : State) : State :=
  {| heap := heap s; videos := videos s; processingQueue := processingQueue s;
     jobs := js; fs := fs s |}.

Definition with_fs (f : Fs.t) (s : State) : State :=
  {| heap := heap s; videos := videos s; processingQueue := processingQueue s;
     jobs := jobs s; fs := f |}.

(** A field assignment through a reference. *)
Definition mutate (l : nat) (f : Video.t → Video.t) (s : State) : State :=
  with_heap (alter f l (heap s)) s.

(** [this.videos.get(id)], dereferenced. *)
Definition registry_get (s : State) (id : string) : option Video.t :=
  l ← JsMap.get (videos s) id; heap s !! l.

Definition registry_values (s : State) : list Video.t :=
  omap (λ l, heap s !! l) (JsMap.values (videos s)).

Definition initial (files : Fs.t) : State :=
  {| heap := []; videos := []; processingQueue := []; jobs := []; fs := files |}.

(** ** Requests and responses *)

Record UploadedFile := {
  originalname : string;
  mimetype : string;
  f_filename : string;      (* the name multer's disk storage generated *)
  f_size : Z;
  f_content : string
}.

Record UploadRequest := {
  file : option UploadedFile;
  body_title : option string;
  body_description : option string;
  user_id : option string   (* req.user?.id *)
}.

(** The query of the list route.  A parameter given once is a string;
    repeated or nested parameters are not modelled. *)
Record ListQuery := {
  q_userId : option string;
  q_status : option string;
  q_page : option Z;        (* Number(page), for integral input *)
  q_limit : option Z
}.

Inductive Body :=
| BError (error : string)
| BUploaded (id title : string) (status : Status) (originalUrl : string)
| BVideo (video : Video.t)
| BList (videos : list Video.t) (page limit total : Z) (pages : option Z)
| BDeleted (message : string).

Inductive Response :=
| Json (code : Z) (body : Body)
| SendFile (contentType : string) (path : list string)
| NextError (message : string).

(** ** The encoder command assembled by [generateHLS] *)

Inductive FfCall :=
| FfInput (path : string)
| FfOutputOptions (opts : list string)
| FfOutput (target : string)
| FfRun.

Definition output_target (c : FfCall) : option string :=
  match c with FfOutput t => Some t | _ => None end.

(** [Array.prototype.slice(start, end)] for integral bounds. *)
Definition js_slice {A} (l : list A) (start stop : Z) : list A :=
  let len := Z.of_nat (length l) in
  let k := if bool_decide (start < 0) then Z.max (len + start) 0 else Z.min start len in
  let final := if bool_decide (stop < 0) then Z.max (len + stop) 0 else Z.min stop len in
  take (Z.to_nat (final - k)) (drop (Z.to_nat k) l).

(** [Math.ceil(a / b)]; [None] stands for the non-finite results of a zero
    divisor. *)
Definition ceil_div (a b : Z) : option Z :=
  if bool_decide (b = 0) then None else Some (- ((- a) `div` b)).

Definition filter_by {A} (param : option string) (key : A → string) (l : list A) : list A :=
  match param with
  | Some p => if Js.truthy_string p then filter (λ v, key v = p) l else l
  | None => l
  end.

(** ** The service *)

Definition allowedTypes : list string :=
  [ "video/mp4"; "video/avi"; "video/mov"; "video/wmv"; "video/flv";
    "video/webm"; "video/mkv" ].

Definition fileSizeLimit : Z := 500 * 1024 * 1024.

(** The multer stage in front of the upload handler: [Some msg] when the
    file is refused and the handler is not run.  multer stops reading a file
    when its size reaches [limits.fileSize], so a file of exactly that size
    is refused as well. *)
Definition multer_refuses (f : UploadedFile) : option string :=
  if bool_decide (mimetype f ∈ allowedTypes) then
    if bool_decide (f_size f < fileSizeLimit) then None else Some "File too large"
  else Some "Invalid video format".

(** The object literal of the upload handler. *)
Definition new_video (req : UploadRequest) (f : UploadedFile) (uuid : string) (now : Z)
  : Video.t :=
  {| Video.id := uuid;
     Video.title := string_or (body_title req) (originalname f);
     Video.description := body_description req;
     Video.userId := string_or (user_id req) "anonymous";
     Video.filename := f_filename f;
     Video.originalUrl := "/streaming/videos/" +:+ f_filename f;
     Video.streamingUrls := None;
     Video.thumbnailUrl := None;
     Video.duration := None;
     Video.size := f_size f;
     Video.status := Uploading;
     Video.createdAt := now;
     Video.updatedAt := now |}.

Section Service.

Variable config : StreamingConfig.
Variable cwd : string.

Definition videosDir : string :=
  string_or (videosPath <$> storage config) "./uploads/videos".

Definition chunksDir : string :=
  string_or (chunksPath <$> storage config) "./uploads/chunks".

Definition configured_qualities : list string :=
  default ["720p"; "480p"; "360p"] (qualities config).

Definition wants_hls : bool :=
  match formats config with
  | Some fmts => bool_decide ("hls" ∈ fmts)
  | None => false
  end.

Definition outputDir (videoId : string) : string :=
  Path.join [chunksDir; videoId].

Definition generateHLS_command (inputPath outDir : string) : list FfCall :=
  let command :=
    [ FfInput inputPath;
      FfOutputOptions
        [ "-c:v libx264"; "-c:a aac"; "-hls_time 10"; "-hls_playlist_type vod";
          "-hls_segment_filename"; Path.join [outDir; "segment_%03d.ts"];
          "-start_number 0" ] ] in
  let command :=
    fold_left
      (λ command quality,
         command ++
         [ FfOutput (Path.join [outDir; quality +:+ ".m3u8"]);
           FfOutputOptions
             [ "-s " +:+ Js.show_string (getResolution quality);
               "-b:v " +:+ Js.show_string (getBitrate quality);
               "-f hls" ] ])
      configured_qualities command in
  command ++
  [ FfOutput (Path.join [outDir; "playlist.m3u8"]);
    FfOutputOptions ["-f hls"; "-hls_segment_type mpegts"; "-hls_flags independent_segments"];
    FfRun ].

(** [generateMasterPlaylist]: the text is written over [playlist.m3u8];
    [None] when [fs.writeFileSync] throws. *)
Definition generateMasterPlaylist (outDir : string) (quals : list string) (files : Fs.t)
  : option Fs.t :=
  Fs.writeFileSync files cwd (Path.join [outDir; "playlist.m3u8"]) (masterPlaylist quals).

(** The files when the encoder emits ['end']: the last output of the command
    of [generateHLS], [playlist.m3u8] in the output directory, is a file, if
    that directory is still there.  What the encoder wrote into its outputs
    is not modelled (its writes are events of their own); this file is
    overwritten next. *)
Definition encoder_ended (outDir : string) (files : Fs.t) : Fs.t :=
  let target := Path.join [outDir; "playlist.m3u8"] in
  if Fs.is_directory files (Fs.dirname (Path.resolve cwd target))
  then Fs.put files cwd target EmptyString
  else files.

(** The ['end'] listener of [generateHLS], which runs
    [generateMasterPlaylist] before [resolve()]: [None] when it throws. *)
Definition end_listener (videoId : string) (files : Fs.t) : option Fs.t :=
  generateMasterPlaylist (outputDir videoId) configured_qualities
    (encoder_ended (outputDir videoId) files).

(** *** [processVideo] *)

(** The synchronous prefix, up to [await fs.ensureDir(outputDir)]. *)
Definition processVideo_start (now : Z) (videoId : string) (s : State) : State :=
  match JsMap.get (videos s) videoId with
  | None => s
  | Some l =>
      let s := mutate l (Video.set_status Processing) s in
      let s := mutate l (Video.set_updatedAt now) s in
      let s := with_videos (JsMap.set (videos s) videoId l) s in
      with_jobs (jobs s ++ [{| job_videoId := videoId; job_video := l;
                               job_at := AwaitEnsureDir |}]) s
  end.

(** The [catch] block. *)
Definition processVideo_catch (now : Z) (j : Job) (s : State) : State :=
  let s := mutate (job_video j) (Video.set_status Error) s in
  let s := mutate (job_video j) (Video.set_updatedAt now) s in
  with_videos (JsMap.set (videos s) (job_videoId j) (job_video j)) s.

(** The tail of the [try] block, after the last [await]. *)
Definition processVideo_finish (now : Z) (j : Job) (s : State) : State :=
  let videoId := job_videoId j in
  let s := mutate (job_video j) (Video.set_status Ready) s in
  let s := mutate (job_video j)
             (Video.set_streamingUrls
                {| hls := Some ("/streaming/stream/" +:+ videoId +:+ "/playlist.m3u8");
                   dash := None |}) s in
  let s := mutate (job_video j)
             (Video.set_thumbnailUrl ("/streaming/thumbnails/" +:+ videoId)) s in
  let s := mutate (job_video j) (Video.set_updatedAt now) s in
  with_videos (JsMap.set (videos s) videoId (job_video j)) s.

Definition at_point (p : Await) (j : Job) : Job :=
  {| job_videoId := job_videoId j; job_video := job_video j; job_at := p |}.

(** One continuation of a suspended call: the awaited promise settles with
    [o] and the call runs to its next [await] ([Some] job) or to its end
    ([None]).  At [AwaitHLS] the outcome is the event the encoder emits:
    ['error'] rejects the promise; on ['end'] the listener writes the master
    playlist and only then resolves it, so when that write throws the
    promise never settles: the call never continues ([None]) and has
    assigned nothing. *)
Definition processVideo_resume (now : Z) (o : Outcome) (j : Job) (s : State)
  : State * option Job :=
  match o with
  | Rejected => (processVideo_catch now j s, None)
  | Resolved probed =>
      match job_at j with
      | AwaitEnsureDir =>
          (with_fs (Fs.ensureDir (fs s) cwd (outputDir (job_videoId j))) s,
           Some (at_point AwaitThumbnail j))
      | AwaitThumbnail => (s, Some (at_point AwaitMetadata j))
      | AwaitMetadata =>
          let s := mutate (job_video j) (Video.set_duration probed) s in
          if wants_hls then (s, Some (at_point AwaitHLS j))
          else (processVideo_finish now j s, None)
      | AwaitHLS =>
          match end_listener (job_videoId j) (fs s) with
          | Some files => (processVideo_finish now j (with_fs files s), None)
          | None => (s, None)
          end
      end
  end.

Definition resume (i : nat) (o : Outcome) (now : Z) (s : State) : State :=
  match jobs s !! i with
  | None => s
  | Some j =>
      let '(s', next) := processVideo_resume now o j s in
      with_jobs (match next with
                 | Some j' => <[i := j']> (jobs s')
                 | None => delete i (jobs s')
                 end) s'
  end.

(** *** Routes *)

(** [POST /upload], the handler behind multer.  [uuid] is the value
    [uuidv4()] returns and [now] the clock reading of this turn.  The call
    [this.processVideo(video.id)] is not awaited: its synchronous prefix
    runs before the response is built, on the same [video] object. *)
Definition uploadHandler (req : UploadRequest) (uuid : string) (now : Z) (s : State)
  : State * Response :=
  match file req with
  | None => (s, Json 400 (BError "No video file provided"))
  | Some f =>
      let video := new_video req f uuid now in
      let l := length (heap s) in
      let s := with_heap (heap s ++ [video]) s in
      let s := with_videos (JsMap.set (videos s) uuid l) s in
      let s := processVideo_start now uuid s in
      let video := default video (heap s !! l) in
      (s, Json 201 (BUploaded (Video.id video) (Video.title video)
                              (Video.status video) (Video.originalUrl video)))
  end.

(** The route at a request whose file multer can store: the accepted file
    is stored under [videosDir] and the handler runs.  ([postUpload] below
    puts the storage step, which can fail, in front.) *)
Definition upload (req : UploadRequest) (uuid : string) (now : Z) (s : State)
  : State * Response :=
  match file req with
  | Some f =>
      match multer_refuses f with
      | Some msg => (s, NextError msg)
      | None =>
          uploadHandler req uuid now
            (with_fs (Fs.put (fs s) cwd
                        (Path.join [videosDir; f_filename f]) (f_content f)) s)
      end
  | None => uploadHandler req uuid now s
  end.

(** Where multer's disk storage writes the file: [destination] is given as
    a function, so multer does not create the directory. *)
Definition stored_at (f : UploadedFile) : list string :=
  Path.resolve cwd (Path.join [videosDir; f_filename f]).

(** [POST /upload], the whole route: the file filter, then the write stream
    of the disk storage, whose error (named here by its code) goes to [next]
    before any handler code runs, then the size limit and the handler. *)
Definition postUpload (req : UploadRequest) (uuid : string) (now : Z) (s : State)
  : State * Response :=
  match file req with
  | Some f =>
      if bool_decide (mimetype f ∈ allowedTypes) then
        match Fs.write_error (fs s) (stored_at f) with
        | Some code => (s, NextError code)
        | None => upload req uuid now s
        end
      else upload req uuid now s
  | None => upload req uuid now s
  end.

(** The state an accepted upload leaves behind. *)
Definition uploaded (req : UploadRequest) (f : UploadedFile) (uuid : string) (now : Z)
    (s : State) : State :=
  let l := length (heap s) in
  {| heap := heap s ++ [Video.set_updatedAt now
                          (Video.set_status Processing (new_video req f uuid now))];
     videos := JsMap.set (JsMap.set (videos s) uuid l) uuid l;
     processingQueue := processingQueue s;
     jobs := jobs s ++ [{| job_videoId := uuid; job_video := l; job_at := AwaitEnsureDir |}];
     fs := Fs.put (fs s) cwd (Path.join [videosDir; f_filename f])
             (f_content f) |}.

(** [GET /videos/:id] *)
Definition getVideo (id : string) (s : State) : Response :=
  match registry_get s id with
  | None => Json 404 (BError "Video not found")
  | Some video => Json 200 (BVideo video)
  end.

(** [GET /videos] *)
Definition listVideos (q : ListQuery) (s : State) : Response :=
  let page := default 1 (q_page q) in
  let limit := default 10 (q_limit q) in
  let videos := registry_values s in
  let videos := filter_by (q_userId q) Video.userId videos in
  let videos := filter_by (q_status q) (λ v, status_string (Video.status v)) videos in
  let startIndex := (page - 1) * limit in
  let endIndex := startIndex + limit in
  let paginatedVideos := js_slice videos startIndex endIndex in
  Json 200 (BList paginatedVideos page limit (Z.of_nat (length videos))
                  (ceil_div (Z.of_nat (length videos)) limit)).

(** [!video || video.status !== "ready"] *)
Definition not_ready (video : option Video.t) : bool :=
  match video with
  | None => true
  | Some v => negb (bool_decide (Video.status v = Ready))
  end.

(** [GET /stream/:id/playlist.m3u8] *)
Definition getPlaylist (id : string) (s : State) : Response :=
  if not_ready (registry_get s id) then
    Json 404 (BError "Video not ready for streaming")
  else
    let playlistPath := Path.join [chunksDir; id; "playlist.m3u8"] in
    if negb (Fs.existsSync (fs s) cwd playlistPath) then
      Json 404 (BError "Playlist not found")
    else SendFile "application/vnd.apple.mpegurl" (Path.resolve cwd playlistPath).

(** [GET /stream/:id/:segment].  [segment] is the route parameter as the
    handler reads it: the router matches one raw path component and then
    percent-decodes it, so the name may contain slashes (sent as [%2F]). *)
Definition getSegment (id segment : string) (s : State) : Response :=
  if not_ready (registry_get s id) then
    Json 404 (BError "Video not ready for streaming")
  else
    let segmentPath := Path.join [chunksDir; id; segment] in
    if negb (Fs.existsSync (fs s) cwd segmentPath) then
      Json 404 (BError "Segment not found")
    else SendFile "video/MP2T" (Path.resolve cwd segmentPath).

(** [GET /thumbnails/:id] *)
Definition getThumbnail (id : string) (s : State) : Response :=
  match registry_get s id with
  | None => Json 404 (BError "Video not found")
  | Some _ =>
      let thumbnailPath := Path.join [videosDir; id +:+ "-thumbnail.jpg"] in
      if negb (Fs.existsSync (fs s) cwd thumbnailPath) then
        Json 404 (BError "Thumbnail not found")
      else SendFile "image/jpeg" (Path.resolve cwd thumbnailPath)
  end.

(** [deleteVideoFiles]: three removals in order inside one [try]; the
    first [completed] of them run, the rest are skipped when one throws. *)
Definition deleteVideoFiles (video : Video.t) (completed : nat) (files : Fs.t) : Fs.t :=
  fold_left
    (λ acc p, if Fs.existsSync acc cwd p then Fs.remove acc cwd p else acc)
    (take completed
       [ Path.join [videosDir; Video.filename video];
         Path.join [videosDir; Video.id video +:+ "-thumbnail.jpg"];
         Path.join [chunksDir; Video.id video] ])
    files.

(** [DELETE /videos/:id] *)
Definition deleteVideo (id : string) (completed : nat) (s : State) : State * Response :=
  match registry_get s id with
  | None => (s, Json 404 (BError "Video not found"))
  | Some video =>
      let s := with_fs (deleteVideoFiles video completed (fs s)) s in
      (with_videos (JsMap.delete (videos s) id) s,
       Json 200 (BDeleted "Video deleted successfully"))
  end.

(** What the client receives for a response, [res.sendFile] reading the
    file at the resolved path. *)
Definition served_content (s : State) (r : Response) : option string :=
  match r with
  | SendFile _ p => Fs.sendFile (fs s) p
  | _ => None
  end.

(** *** Events and runs *)

Inductive Event :=
| EUpload (req : UploadRequest) (uuid : string) (now : Z)
| EResume (i : nat) (o : Outcome) (now : Z)
| EDelete (id : string) (completed : nat)
| EExternal (files : Fs.t).   (* the encoder or another process writes files *)

Definition step (e : Event) (s : State) : State :=
  match e with
  | EUpload req uuid now => (postUpload req uuid now s).1
  | EResume i o now => resume i o now s
  | EDelete id completed => (deleteVideo id completed s).1
  | EExternal files => with_fs files s
  end.

Definition run (es : list Event) (s : State) : State :=
  fold_left (λ s e, step e s) es s.

Inductive reachable : State → Prop :=
| reachable_initial files : reachable (initial files)
| reachable_step e s : reachable s → reachable (step e s).

(** The continuations of the call that holds object [l], one after the
    other, the engine deciding how each awaited promise settles.  The job
    keeps its index while it is suspended. *)
Fixpoint drive (fuel : nat) (engine : Await → Outcome) (now : Z) (i l : nat) (s : State)
  : State :=
  match fuel with
  | O => s
  | S fuel' =>
      match jobs s !! i with
      | Some j =>
          if decide (job_video j = l)
          then drive fuel' engine now i l (resume i (engine (job_at j)) now s)
          else s
      | None => s
      end
  end.

End Service.

(** ** Notions used in the statements *)

Definition tier_names : list string := ["240p"; "360p"; "480p"; "720p"; "1080p"].

(** The parameters the encoder is given for a tier name. *)
Definition encode_parameters (q : string) : Js.Val string * Js.Val string :=
  (getResolution q, getBitrate q).

(** One default pair for every name outside [listed]. *)
Definition single_default_outside (listed : list string) : Prop :=
  ∃ d, ∀ q, q ∉ listed → encode_parameters q = d.

(** The playlist's own bandwidth table. *)
Definition bandwidth_table (q : string) : N :=
  if decide (q = "240p") then 500000
  else if decide (q = "360p") then 1000000
  else if decide (q = "480p") then 1500000
  else if decide (q = "720p") then 3000000
  else if decide (q = "1080p") then 6000000
  else 1000000.

(** A tier name that is not a member inherited from [Object.prototype],
    has no line break in it and does not look like a playlist tag. *)
Definition plain_tier (q : string) : Prop :=
  Js.inherited q = false ∧
  Str.mem_char "010"%char q = false ∧
  Str.starts_with "#" q = false.

Fixpoint entries_text (qs : list string) : string :=
  match qs with
  | [] => EmptyString
  | q :: qs' => stream_inf_line q +:+ uri_line q +:+ entries_text qs'
  end.

(** The attribute line of a tier, without its line break. *)
Definition stream_inf_body (q : string) : string :=
  "#EXT-X-STREAM-INF:BANDWIDTH=" +:+ Js.show_number (getBandwidth q)
  +:+ ",RESOLUTION=" +:+ Js.show_string (getResolution q).

(** What the playlist lists for one tier. *)
Definition listed_for (q : string) (r : Rendition) : Prop :=
  getBandwidth q = Js.Value (r_bandwidth r) ∧
  getResolution q = Js.Value (r_resolution r) ∧
  r_uri r = q +:+ ".m3u8".

(** What [".."] does to the segments kept so far. *)
Definition pop (allow : bool) (st : list string) : list string :=
  match st with
  | top :: st' =>
      if bool_decide (top = "..") then (if allow then ".." :: st else st) else st'
  | [] => if allow then [".."] else []
  end.

(** A kept segment: not empty, not ["."], without a slash. *)
Definition kept (x : string) : Prop :=
  x ≠ EmptyString ∧ x ≠ "." ∧ Str.mem_char "/"%char x = false.

(** [streamingUrls] is set exactly when the record is ready. *)
Definition manifest_iff_ready (v : Video.t) : Prop :=
  is_Some (Video.streamingUrls v) ↔ Video.status v = Ready.

(** The object a suspended call works on. *)
Definition in_flight (s : State) (j : Job) : Prop :=
  ∃ v, heap s !! job_video j = Some v ∧
       Video.status v = Processing ∧
       Video.streamingUrls v = None ∧
       Video.thumbnailUrl v = None.

Record consistent (s : State) : Prop := {
  consistent_heap : Forall manifest_iff_ready (heap s);
  consistent_jobs : Forall (in_flight s) (jobs s);
  consistent_owners : NoDup (job_video <$> jobs s)
}.

(** A query parameter counts as supplied when it is a non-empty string. *)
Definition matches_param {A} (param : option string) (key : A → string) (v : A) : Prop :=
  match param with
  | Some p => if Js.truthy_string p then key v = p else True
  | None => True
  end.

Global Instance matches_param_dec {A} param (key : A → string) v :
  Decision (matches_param param key v).
Proof.
  unfold matches_param.
  destruct param as [p|]; [destruct (Js.truthy_string p)|]; apply _.
Defined.

Definition matches (q : ListQuery) (v : Video.t) : Prop :=
  matches_param (q_userId q) Video.userId v ∧
  matches_param (q_status q) (λ v, status_string (Video.status v)) v.

Definition listed_videos (r : Response) : list Video.t :=
  match r with
  | Json _ (BList vs _ _ _ _) => vs
  | _ => []
  end.

(** Newest first, by creation time. *)
Definition newest_first (l : list Video.t) : Prop :=
  Sorted Z.ge (Video.createdAt <$> l).

Definition response_code (r : Response) : option Z :=
  match r with
  | Json code _ => Some code
  | SendFile _ _ => Some 200
  | NextError _ => None
  end.

(** C3, as the specification words it: a record that is still [Uploading]
    or [Processing] gets a 400 of its own, which no unknown id gets. *)
Definition not_ready_is_distinct (config : StreamingConfig) (cwd : string) (s : State)
    (id : string) : Prop :=
  response_code (getPlaylist config cwd id s) = Some 400 ∧
  ∀ id', registry_get s id' = None →
         getPlaylist config cwd id' s ≠ getPlaylist config cwd id s.

Global Instance matches_dec (q : ListQuery) (v : Video.t) : Decision (matches q v).
Proof. unfold matches. apply _. Defined.

(** ** Sample data for the concrete runs *)

Definition sample_file : UploadedFile :=
  {| originalname := "cat.mp4"; mimetype := "video/mp4";
     f_filename := "3f2a-1700000000000.mp4"; f_size := 1000; f_content := "CAT" |}.

Definition sample_request : UploadRequest :=
  {| file := Some sample_file; body_title := None; body_description := None;
     user_id := Some "alice" |}.

Definition all_videos : ListQuery :=
  {| q_userId := None; q_status := None; q_page := None; q_limit := None |}.

Definition sample_cwd : string := "/srv/app".

(** An engine whose thumbnail extraction fails while the probe and every
    encode succeed. *)
Definition thumbnail_fails (p : Await) : Outcome :=
  if decide (p = AwaitThumbnail) then Rejected else Resolved (Some 10).

Definition all_succeed (p : Await) : Outcome := Resolved (Some 10).

(** The two directories [initialize] creates under the default
    configuration. *)
Definition sample_files : Fs.t :=
  Fs.ensureDir (Fs.ensureDir ∅ sample_cwd "./uploads/videos") sample_cwd "./uploads/chunks".

(** A first upload into the fresh service, with the default configuration. *)
Definition sample_uploaded : State :=
  run defaultStreaming sample_cwd [EUpload sample_request "a" 100] (initial sample_files).

(** Its call has created the output directory, taken the thumbnail and
    probed the source; the encode is running. *)
Definition sample_encoding : State :=
  run defaultStreaming sample_cwd
    [ EResume 0 (Resolved None) 101; EResume 0 (Resolved None) 102;
      EResume 0 (Resolved (Some 10)) 103 ]
    sample_uploaded.

(** The encoder has written a segment and finished. *)
Definition sample_ready : State :=
  run defaultStreaming sample_cwd
    [ EExternal (<[ ["srv"; "app"; "uploads"; "chunks"; "a"; "segment_000.ts"] := File "TS0" ]>
                   (fs sample_encoding));
      EResume 0 (Resolved None) 104 ]
    sample_encoding.

(** Three uploads in a row, each call advanced to its encode. *)
Definition sample_burst : State :=
  run defaultStreaming sample_cwd
    [ EUpload sample_request "a" 100; EUpload sample_request "b" 101;
      EUpload sample_request "c" 102;
      EResume 0 (Resolved None) 103; EResume 0 (Resolved None) 104;
      EResume 0 (Resolved (Some 10)) 105;
      EResume 1 (Resolved None) 106; EResume 1 (Resolved None) 107;
      EResume 1 (Resolved (Some 10)) 108;
      EResume 2 (Resolved None) 109; EResume 2 (Resolved None) 110;
      EResume 2 (Resolved (Some 10)) 111 ]
    (initial sample_files).

(** The output directory of the running encode is removed from outside;
    the encoder then ends. *)
Definition sample_stalled : State :=
  run defaultStreaming sample_cwd
    [ EExternal (Fs.remove (fs sample_encoding) sample_cwd "uploads/chunks/a");
      EResume 0 (Resolved None) 104 ]
    sample_encoding.

(** Two uploads, one after the other. *)
Definition sample_pair : State :=
  run defaultStreaming sample_cwd
    [ EUpload sample_request "a" 100; EUpload sample_request "b" 200 ]
    (initial sample_files).

(** ** Notions for the further properties *)

(** What the tail of the [try] block assigns to the record. *)
Definition finish_effect (now : Z) (videoId : string) (v : Video.t) : Video.t :=
  Video.set_updatedAt now
    (Video.set_thumbnailUrl ("/streaming/thumbnails/" +:+ videoId)
       (Video.set_streamingUrls
          {| hls := Some ("/streaming/stream/" +:+ videoId +:+ "/playlist.m3u8");
             dash := None |}
          (Video.set_status Ready v))).

(** What the [catch] block assigns. *)
Definition catch_effect (now : Z) (v : Video.t) : Video.t :=
  Video.set_updatedAt now (Video.set_status Error v).

Definition next_point (p : Await) : Await :=
  match p with
  | AwaitEnsureDir => AwaitThumbnail
  | AwaitThumbnail => AwaitMetadata
  | AwaitMetadata | AwaitHLS => AwaitHLS
  end.

Section Continuations.

Variable config : StreamingConfig.
Variable cwd : string.

(** Whether the continuation finds the ['end'] listener throwing: the call
    then stalls for good. *)
Definition stalls (o : Outcome) (j : Job) (s : State) : bool :=
  match o, job_at j with
  | Resolved _, AwaitHLS =>
      match end_listener config cwd (job_videoId j) (fs s) with
      | None => true
      | Some _ => false
      end
  | _, _ => false
  end.

(** Whether the call is over after the step awaited at [p] ends with
    [o]. *)
Definition resume_ends (o : Outcome) (p : Await) : bool :=
  match o with
  | Rejected => true
  | Resolved _ =>
      match p with
      | AwaitEnsureDir | AwaitThumbnail => false
      | AwaitMetadata => negb (wants_hls config)
      | AwaitHLS => true
      end
  end.

(** The assignments one continuation makes to the record it holds, when it
    does not stall. *)
Definition resume_effect (now : Z) (o : Outcome) (j : Job) (v : Video.t) : Video.t :=
  match o with
  | Rejected => catch_effect now v
  | Resolved probed =>
      match job_at j with
      | AwaitEnsureDir | AwaitThumbnail => v
      | AwaitMetadata =>
          if wants_hls config then Video.set_duration probed v
          else finish_effect now (job_videoId j) (Video.set_duration probed v)
      | AwaitHLS => finish_effect now (job_videoId j) v
      end
  end.

End Continuations.

(** The id an event operates on. *)
Definition event_target (e : Event) (s : State) : option string :=
  match e with
  | EUpload _ uuid _ => Some uuid
  | EResume i _ _ => job_videoId <$> jobs s !! i
  | EDelete id _ => Some id
  | EExternal _ => None
  end.

(** The fields no assignment of the service touches. *)
Definition same_identity (v v' : Video.t) : Prop :=
  Video.id v' = Video.id v ∧ Video.title v' = Video.title v ∧
  Video.description v' = Video.description v ∧ Video.userId v' = Video.userId v ∧
  Video.filename v' = Video.filename v ∧ Video.originalUrl v' = Video.originalUrl v ∧
  Video.size v' = Video.size v ∧ Video.createdAt v' = Video.createdAt v.

Definition terminal (v : Video.t) : Prop :=
  Video.status v = Ready ∨ Video.status v = Error.

(** References of a record, by status. *)
Definition record_shape (v : Video.t) : Prop :=
  match Video.status v with
  | Uploading => False
  | Processing | Error =>
      Video.streamingUrls v = None ∧ Video.thumbnailUrl v = None
  | Ready =>
      Video.streamingUrls v
      = Some {| hls := Some ("/streaming/stream/" +:+ Video.id v +:+ "/playlist.m3u8");
                dash := None |} ∧
      Video.thumbnailUrl v = Some ("/streaming/thumbnails/" +:+ Video.id v)
  end.

(** Every registry entry and every suspended call names the id of the
    record it refers to; keys are unique; records have their shape. *)
Record well_formed (s : State) : Prop := {
  wf_entries :
    Forall (λ kv, ∃ v, heap s !! kv.2 = Some v ∧ Video.id v = kv.1) (videos s);
  wf_keys : NoDup (JsMap.keys (videos s));
  wf_jobs :
    Forall (λ j, ∃ v, heap s !! job_video j = Some v ∧ Video.id v = job_videoId j)
           (jobs s);
  wf_shape : Forall record_shape (heap s)
}.


(** An upload the route accepts: a file of an allowed type, below the size
    limit, that the disk storage can write. *)
Definition accepted (config : StreamingConfig) (cwd : string) (req : UploadRequest)
    (s : State) : Prop :=
  ∃ f, file req = Some f ∧ mimetype f ∈ allowedTypes ∧ f_size f < fileSizeLimit ∧
       Fs.write_error (fs s) (stored_at config cwd f) = None.

(** The three paths [deleteVideoFiles] removes. *)
Definition video_paths (config : StreamingConfig) (video : Video.t) : list string :=
  [ Path.join [videosDir config; Video.filename video];
    Path.join [videosDir config; Video.id video +:+ "-thumbnail.jpg"];
    Path.join [chunksDir config; Video.id video] ].

(** The loop of [deleteVideoFiles] over any list of paths. *)
Definition remove_existing (cwd : string) (files : Fs.t) (ps : list string) : Fs.t :=
  fold_left (λ acc p, if Fs.existsSync acc cwd p then Fs.remove acc cwd p else acc)
            ps files.

Definition listed_total (r : Response) : option Z :=
  match r with
  | Json _ (BList _ _ _ total _) => Some total
  | _ => None
  end.

Definition listed_pages (r : Response) : option Z :=
  match r with
  | Json _ (BList _ _ _ _ pages) => pages
  | _ => None
  end.

(** A file name: one segment that is a name. *)
Definition file_name (b : string) : Prop :=
  b ≠ EmptyString ∧ b ≠ "." ∧ b ≠ ".." ∧ Str.mem_char "/"%char b = false.

(** *** Further sample data *)

(** A configuration that asks for DASH only. *)
Definition sample_no_hls : StreamingConfig := {|
  enabled := true;
  provider := "local";
  formats := Some ["dash"];
  qualities := Some ["720p"];
  storage := None;
  transcoding := None
|}.

(** Under it, a first upload whose call is probing the source. *)
Definition sample_probing : State :=
  run sample_no_hls sample_cwd
    [ EUpload sample_request "a" 100;
      EResume 0 (Resolved None) 101; EResume 0 (Resolved None) 102 ]
    (initial sample_files).

(** The record of the first upload once its encode is over. *)
Definition sample_ready_record : Video.t :=
  finish_effect 104 "a"
    (Video.set_duration (Some 10)
       (Video.set_updatedAt 100
          (Video.set_status Processing (new_video sample_request sample_file "a" 100)))).

Definition sample_job (p : Await) : Job :=
  {| job_videoId := "a"; job_video := 0; job_at := p |}.


Definition limit_zero : ListQuery :=
  {| q_userId := None; q_status := None; q_page := None; q_limit := Some 0 |}.

Definition limit_minus_one : ListQuery :=
  {| q_userId := None; q_status := None; q_page := None; q_limit := Some (- 1) |}.

(** * Properties *)

(** ** Strings *)

Lemma append_nil_l (s : string) : EmptyString +:+ s = s.
Proof. reflexivity. Qed.

Lemma append_cons (a : ascii) (s t : string) : String a s +:+ t = String a (s +:+ t).
Proof. reflexivity. Qed.

Lemma append_nil_r (s : string) : s +:+ EmptyString = s.
Proof. induction s as [|a s IH]; [done|]. by rewrite append_cons, IH. Qed.

Lemma append_assoc (s t u : string) : (s +:+ t) +:+ u = s +:+ t +:+ u.
Proof. induction s as [|a s IH]; [done|]. by rewrite !append_cons, IH. Qed.

Lemma split_on_nonempty (c : ascii) (s : string) : Str.split_on c s ≠ [].
Proof.
  induction s as [|a s IH]; simpl; [done|].
  case_decide; [done|]. by destruct (Str.split_on c s).
Qed.

(** Splitting at the first separator. *)
Lemma split_on_first (c : ascii) (a b : string) :
  Str.mem_char c a = false →
  Str.split_on c (a +:+ String c b) = a :: Str.split_on c b.
Proof.
  induction a as [|x a IH]; intros Hc.
  - rewrite append_nil_l. simpl. by rewrite decide_True.
  - simpl in Hc. case_decide as Hx; [done|].
    rewrite append_cons. simpl. rewrite decide_False by done.
    by rewrite IH.
Qed.

(** Splitting distributes over a separator placed between two strings. *)
Lemma split_on_sep (c : ascii) (a b : string) :
  Str.split_on c (a +:+ String c b) = Str.split_on c a ++ Str.split_on c b.
Proof.
  induction a as [|x a IH].
  - rewrite append_nil_l. simpl. by rewrite decide_True.
  - rewrite append_cons. simpl. case_decide; [by rewrite IH|].
    rewrite IH. pose proof (split_on_nonempty c a).
    by destruct (Str.split_on c a).
Qed.

(** ** Quality tiers *)

(** Case analysis on a tier name: one of the five keys, or none of them. *)
Lemma tier_cases (q : string) :
  q = "240p" ∨ q = "360p" ∨ q = "480p" ∨ q = "720p" ∨ q = "1080p" ∨ q ∉ tier_names.
Proof.
  destruct (decide (q ∈ tier_names)) as [Hin|Hout]; [|by repeat right].
  unfold tier_names in Hin. rewrite !elem_of_cons, elem_of_nil in Hin. tauto.
Qed.

Lemma own_lookup_outside {A} (tbl : list (string * A)) (q : string) :
  q ∉ tbl.*1 → Js.own_lookup tbl q = None.
Proof.
  induction tbl as [|[k a] tbl IH]; simpl; [done|].
  intros Hq. apply not_elem_of_cons in Hq as [? ?].
  rewrite decide_False by done. auto.
Qed.

Lemma getResolution_unknown (q : string) :
  q ∉ tier_names → Js.inherited q = false → getResolution q = Js.Value "640x360".
Proof.
  intros Hq Hi. unfold getResolution, Js.get.
  rewrite own_lookup_outside by done. by rewrite Hi.
Qed.

Lemma getBitrate_unknown (q : string) :
  q ∉ tier_names → Js.inherited q = false → getBitrate q = Js.Value "800k".
Proof.
  intros Hq Hi. unfold getBitrate, Js.get.
  rewrite own_lookup_outside by done. by rewrite Hi.
Qed.

Lemma getBandwidth_unknown (q : string) :
  q ∉ tier_names → Js.inherited q = false → getBandwidth q = Js.Value 1000000%N.
Proof.
  intros Hq Hi. unfold getBandwidth, Js.get.
  rewrite own_lookup_outside by done. by rewrite Hi.
Qed.

Ltac tier_analysis q :=
  destruct (tier_cases q) as [->|[->|[->|[->|[->|?]]]]].

(** C9 (as stated) fails: ["240p"] is outside the four listed tiers and has
    an entry of its own, 426x240 at 400k, not what an unknown name such as
    ["4K"] gets; so the names outside the four have no single default. *)
Lemma listed_tiers_not_exhaustive :
  ("240p" ∉ ["360p"; "480p"; "720p"; "1080p"]) ∧
  encode_parameters "240p" = (Js.Value "426x240", Js.Value "400k") ∧
  encode_parameters "4K" = (Js.Value "640x360", Js.Value "800k") ∧
  ¬ single_default_outside ["360p"; "480p"; "720p"; "1080p"].
Proof.
  assert (∀ q, q ≠ "360p" → q ≠ "480p" → q ≠ "720p" → q ≠ "1080p" →
               q ∉ ["360p"; "480p"; "720p"; "1080p"]) as Hout.
  { intros q ? ? ? ?. rewrite !elem_of_cons, elem_of_nil. tauto. }
  split; [by apply Hout|]. split; [done|]. split; [done|].
  intros [d Hd].
  assert (encode_parameters "240p" = encode_parameters "4K") as Heq.
  { rewrite (Hd "240p"), (Hd "4K") by (by apply Hout). done. }
  vm_compute in Heq. discriminate.
Qed.

(** C9 (amended): the lookup has five entries, the four of the
    specification and 240p -> 426x240 at 400k; every other tier name that is
    not a member inherited from [Object.prototype] gets 640x360 at 800k. *)
Theorem encode_parameters_table (q : string) :
  Js.inherited q = false →
  encode_parameters q =
    if decide (q = "240p") then (Js.Value "426x240", Js.Value "400k")
    else if decide (q = "360p") then (Js.Value "640x360", Js.Value "800k")
    else if decide (q = "480p") then (Js.Value "854x480", Js.Value "1200k")
    else if decide (q = "720p") then (Js.Value "1280x720", Js.Value "2500k")
    else if decide (q = "1080p") then (Js.Value "1920x1080", Js.Value "5000k")
    else (Js.Value "640x360", Js.Value "800k").
Proof.
  intros Hi. tier_analysis q; try reflexivity.
  unfold encode_parameters.
  rewrite getResolution_unknown, getBitrate_unknown by done.
  repeat (rewrite decide_False
            by (intros ->; apply H; unfold tier_names; rewrite !elem_of_cons; tauto)).
  done.
Qed.

Lemma encode_parameters_table_witness :
  encode_parameters "4K" = (Js.Value "640x360", Js.Value "800k") ∧
  encode_parameters "240p" = (Js.Value "426x240", Js.Value "400k").
Proof.
  split.
  - apply (encode_parameters_table "4K"). reflexivity.
  - apply (encode_parameters_table "240p"). reflexivity.
Defined.

(** ** Master playlist *)

Lemma masterPlaylist_fold (qs : list string) (acc : string) :
  fold_left (λ acc quality, (acc +:+ stream_inf_line quality) +:+ uri_line quality) qs acc
  = acc +:+ entries_text qs.
Proof.
  revert acc. induction qs as [|q qs IH]; intros acc; simpl.
  - by rewrite append_nil_r.
  - by rewrite IH, !append_assoc.
Qed.

Lemma masterPlaylist_text (qs : list string) :
  masterPlaylist qs = playlist_header +:+ entries_text qs.
Proof. apply masterPlaylist_fold. Qed.

Lemma mem_char_app (c : ascii) (s t : string) :
  Str.mem_char c (s +:+ t) = Str.mem_char c s || Str.mem_char c t.
Proof.
  induction s as [|a s IH]; [done|].
  rewrite append_cons. simpl. by case_decide.
Qed.

Lemma stream_inf_line_body (q : string) :
  stream_inf_line q = stream_inf_body q +:+ Str.nl.
Proof. unfold stream_inf_line, stream_inf_body. by rewrite !append_assoc. Qed.

Lemma stream_inf_body_shape (q : string) :
  Js.inherited q = false →
  ∃ bw res,
    getBandwidth q = Js.Value bw ∧ getResolution q = Js.Value res ∧
    Str.mem_char "010"%char (stream_inf_body q) = false ∧
    parse_stream_inf (stream_inf_body q) = Some (bw, res).
Proof.
  intros Hi.
  tier_analysis q; try (eexists _, _; repeat split; reflexivity).
  unfold stream_inf_body.
  rewrite getBandwidth_unknown, getResolution_unknown by done.
  eexists _, _; repeat split; reflexivity.
Qed.

Lemma parse_uri_line (q : string) :
  Str.starts_with "#" q = false → parse_stream_inf (q +:+ ".m3u8") = None.
Proof.
  destruct q as [|a q]; [done|].
  simpl. case_decide as Ha; [done|]. intros _.
  unfold parse_stream_inf. rewrite append_cons. simpl.
  by rewrite decide_False.
Qed.

Lemma lines_of_entry (q rest : string) :
  Js.inherited q = false →
  Str.mem_char "010"%char q = false →
  Str.split_on "010"%char (stream_inf_line q +:+ uri_line q +:+ rest)
  = stream_inf_body q :: (q +:+ ".m3u8") :: EmptyString :: Str.split_on "010"%char rest.
Proof.
  intros Hi Hq.
  destruct (stream_inf_body_shape q Hi) as (bw & res & _ & _ & Hnl & _).
  rewrite stream_inf_line_body. unfold uri_line.
  rewrite !append_assoc.
  repeat change (Str.nl +:+ ?x) with (String "010"%char x).
  rewrite split_on_first by done.
  rewrite <- (append_assoc q ".m3u8"). rewrite split_on_first.
  - cbn [Str.split_on]. by rewrite decide_True.
  - rewrite mem_char_app, Hq. reflexivity.
Qed.

Lemma parse_entries_text (qs : list string) :
  Forall plain_tier qs →
  Forall2 listed_for qs (parse_entries (Str.split_on "010"%char (entries_text qs))).
Proof.
  induction 1 as [|q qs (Hi & Hnl & Hhash) _ IH]; cbn [entries_text].
  - constructor.
  - rewrite lines_of_entry by done.
    destruct (stream_inf_body_shape q Hi) as (bw & res & Hbw & Hres & _ & Hparse).
    cbn [parse_entries]. rewrite Hparse.
    rewrite parse_uri_line by done.
    change (parse_stream_inf EmptyString) with (@None (N * string)).
    constructor; [|exact IH].
    by repeat split.
Qed.

Lemma listed_renditions_masterPlaylist (qs : list string) :
  Forall plain_tier qs →
  Forall2 listed_for qs (listed_renditions (masterPlaylist qs)).
Proof.
  intros Hqs. unfold listed_renditions.
  rewrite masterPlaylist_text. unfold playlist_header.
  rewrite !append_assoc.
  repeat change (Str.nl +:+ ?x) with (String "010"%char x).
  rewrite !split_on_first by reflexivity.
  cbn [Str.split_on]. rewrite decide_True by done.
  cbn [parse_entries].
  change (parse_stream_inf "#EXTM3U") with (@None (N * string)).
  change (parse_stream_inf "#EXT-X-VERSION:3") with (@None (N * string)).
  change (parse_stream_inf EmptyString) with (@None (N * string)).
  cbv iota. by apply parse_entries_text.
Qed.

(** C6 (as stated) fails: with the default tiers 720p, 480p, 360p the
    playlist lists bandwidths 3000000, 1500000, 1000000, highest first. *)
Lemma default_playlist_not_ascending :
  r_bandwidth <$>
    listed_renditions (masterPlaylist (configured_qualities defaultStreaming))
  = [3000000; 1500000; 1000000]%N ∧
  ¬ Sorted N.le
      (r_bandwidth <$>
         listed_renditions (masterPlaylist (configured_qualities defaultStreaming))).
Proof.
  assert (r_bandwidth <$>
            listed_renditions (masterPlaylist (configured_qualities defaultStreaming))
          = [3000000; 1500000; 1000000]%N) as Heq by (vm_compute; reflexivity).
  split; [exact Heq|]. rewrite Heq. intros Hs.
  apply Sorted_inv in Hs as [_ Hhd].
  apply HdRel_inv in Hhd. lia.
Qed.

Section Encoder.

Variable config : StreamingConfig.
Variables inputPath outDir : string.

Lemma encoder_outputs_fold (qs : list string) (command : list FfCall) :
  omap output_target
    (fold_left
       (λ command quality,
          command ++
          [ FfOutput (Path.join [outDir; quality +:+ ".m3u8"]);
            FfOutputOptions
              [ "-s " +:+ Js.show_string (getResolution quality);
                "-b:v " +:+ Js.show_string (getBitrate quality);
                "-f hls" ] ])
       qs command)
  = omap output_target command ++ ((λ q, Path.join [outDir; q +:+ ".m3u8"]) <$> qs).
Proof.
  revert command. induction qs as [|q qs IH]; intros command; simpl.
  - by rewrite app_nil_r.
  - rewrite IH, omap_app. simpl. by rewrite <- app_assoc.
Qed.

Lemma encoder_outputs :
  omap output_target (generateHLS_command config inputPath outDir)
  = ((λ q, Path.join [outDir; q +:+ ".m3u8"]) <$> configured_qualities config)
    ++ [Path.join [outDir; "playlist.m3u8"]].
Proof.
  unfold generateHLS_command. rewrite omap_app, encoder_outputs_fold. done.
Qed.

(** C6 (amended): the master playlist lists the renditions in the
    configured order of the tiers, which is also the order in which the
    encoder is given its outputs; no sorting by bitrate takes place.  Each
    entry carries the tier's BANDWIDTH and RESOLUTION and names the tier's
    own playlist. *)
Theorem master_playlist_in_configured_order :
  Forall plain_tier (configured_qualities config) →
  Forall2 listed_for (configured_qualities config)
    (listed_renditions (masterPlaylist (configured_qualities config))) ∧
  omap output_target (generateHLS_command config inputPath outDir)
  = ((λ q, Path.join [outDir; q +:+ ".m3u8"]) <$> configured_qualities config)
    ++ [Path.join [outDir; "playlist.m3u8"]].
Proof.
  intros Hqs. split.
  - by apply listed_renditions_masterPlaylist.
  - apply encoder_outputs.
Qed.

End Encoder.

Lemma master_playlist_in_configured_order_witness :
  Forall plain_tier ["720p"; "480p"; "360p"] ∧
  Forall2 listed_for ["720p"; "480p"; "360p"]
    (listed_renditions (masterPlaylist ["720p"; "480p"; "360p"])).
Proof.
  assert (Forall plain_tier (configured_qualities defaultStreaming)) as Hq.
  { repeat constructor. }
  split; [exact Hq|].
  exact (proj1 (master_playlist_in_configured_order defaultStreaming
                  "uploads/videos/in.mp4" "uploads/chunks/v" Hq)).
Defined.

Lemma tier_bandwidth (q : string) :
  Js.inherited q = false →
  ∃ bitrate rate,
    getBandwidth q = Js.Value (bandwidth_table q) ∧
    r_bandwidth <$> listed_renditions (stream_inf_line q) = [bandwidth_table q] ∧
    getBitrate q = Js.Value bitrate ∧
    bitrate_bps bitrate = Some rate ∧
    bandwidth_table q ≠ rate.
Proof.
  intros Hi.
  tier_analysis q; try (eexists _, _; repeat split; [reflexivity..|done]).
  assert (bandwidth_table q = 1000000%N) as ->.
  { unfold bandwidth_table.
    repeat (rewrite decide_False
              by (intros ->; apply H; unfold tier_names; rewrite !elem_of_cons; tauto)).
    done. }
  unfold stream_inf_line.
  rewrite getBandwidth_unknown, getResolution_unknown, getBitrate_unknown by done.
  eexists _, _; repeat split; [reflexivity..|done].
Qed.

Lemma listed_bandwidths (qs : list string) (rs : list Rendition) :
  Forall plain_tier qs →
  Forall2 listed_for qs rs →
  r_bandwidth <$> rs = bandwidth_table <$> qs.
Proof.
  intros Hqs H2. induction H2 as [|q r qs rs (Hbw & _ & _) _ IH]; [done|].
  apply Forall_cons in Hqs as [(Hi & _ & _) Hqs].
  destruct (tier_bandwidth q Hi) as (_ & _ & Hq & _).
  rewrite !fmap_cons, IH by done. f_equal. congruence.
Qed.

(** C10 (as stated) fails: ["toString"] is not in the table, so it is an
    unknown tier name, yet the value written after [BANDWIDTH=] is not
    1000000: it is the function every object inherits under that name, and
    the encoder is given the very same function as its bitrate. *)
Lemma inherited_name_outside_bandwidth_table :
  ("toString" ∉ tier_names) ∧
  getBandwidth "toString" = Js.ProtoMember "toString" ∧
  getBandwidth "toString" ≠ Js.Value 1000000%N ∧
  getBitrate "toString" = Js.ProtoMember "toString" ∧
  Js.show_number (getBandwidth "toString") = Js.show_string (getBitrate "toString") ∧
  stream_inf_line "toString"
  = "#EXT-X-STREAM-INF:BANDWIDTH=function toString() { [native code] },RESOLUTION=function toString() { [native code] }"
    +:+ Str.nl.
Proof.
  split.
  { unfold tier_names. rewrite !elem_of_cons, elem_of_nil.
    intros H. repeat destruct H as [H|H]; done. }
  repeat split; vm_compute; done.
Qed.

(** C10 (amended): for a tier name that is not a member inherited from
    [Object.prototype], the BANDWIDTH attribute written for the tier comes
    from the playlist's own table (1000000 for a name outside it), in the
    entry line and in the master playlist of any configured list, and it
    differs from the bitrate the encoder is given for that tier. *)
Theorem playlist_bandwidth_is_not_encode_bitrate (q : string) :
  Js.inherited q = false →
  (∃ bitrate rate,
     getBandwidth q = Js.Value (bandwidth_table q) ∧
     r_bandwidth <$> listed_renditions (stream_inf_line q) = [bandwidth_table q] ∧
     getBitrate q = Js.Value bitrate ∧
     bitrate_bps bitrate = Some rate ∧
     bandwidth_table q ≠ rate) ∧
  (∀ qs, q ∈ qs → Forall plain_tier qs →
         r_bandwidth <$> listed_renditions (masterPlaylist qs) = bandwidth_table <$> qs).
Proof.
  intros Hi. split; [by apply tier_bandwidth|].
  intros qs _ Hqs. apply listed_bandwidths; [done|].
  by apply listed_renditions_masterPlaylist.
Qed.

Lemma playlist_bandwidth_is_not_encode_bitrate_witness :
  (∃ bitrate rate,
     getBandwidth "720p" = Js.Value 3000000%N ∧
     r_bandwidth <$> listed_renditions (stream_inf_line "720p") = [3000000%N] ∧
     getBitrate "720p" = Js.Value bitrate ∧
     bitrate_bps bitrate = Some rate ∧
     3000000%N ≠ rate) ∧
  r_bandwidth <$> listed_renditions (masterPlaylist ["720p"; "480p"; "360p"])
  = [3000000%N; 1500000%N; 1000000%N].
Proof.
  destruct (playlist_bandwidth_is_not_encode_bitrate "720p" eq_refl) as [Hline Hlist].
  split; [exact Hline|].
  apply (Hlist ["720p"; "480p"; "360p"]).
  - apply list_elem_of_here.
  - repeat constructor.
Defined.

(** ** The registry map *)

Lemma JsMap_get_set_eq {V} (m : JsMap.t V) (k : string) (v : V) :
  JsMap.get (JsMap.set m k v) k = Some v.
Proof.
  induction m as [|[k' v'] m IH]; simpl.
  - by rewrite decide_True.
  - destruct (decide (k = k')) as [->|Hne]; simpl.
    + by rewrite decide_True.
    + by rewrite decide_False.
Qed.

Lemma JsMap_get_set_ne {V} (m : JsMap.t V) (k k' : string) (v : V) :
  k ≠ k' → JsMap.get (JsMap.set m k v) k' = JsMap.get m k'.
Proof.
  intros Hne. induction m as [|[k0 v0] m IH]; simpl.
  - by rewrite decide_False.
  - destruct (decide (k = k0)) as [->|Hk]; simpl.
    + by rewrite !decide_False.
    + destruct (decide (k' = k0)); [done|]. exact IH.
Qed.

Lemma alter_snoc {A} (f : A → A) (h : list A) (x : A) :
  alter f (length h) (h ++ [x]) = h ++ [f x].
Proof. induction h as [|y h IH]; simpl; [done|]. by f_equal. Qed.

(** ** [processVideo] and the upload route *)

Section ServiceProperties.

Variable config : StreamingConfig.
Variable cwd : string.

Lemma registry_get_lookup (s : State) (id : string) (v : Video.t) :
  registry_get s id = Some v → v ∈ heap s.
Proof.
  unfold registry_get. intros Hg.
  destruct (JsMap.get (videos s) id) as [l|]; simplify_eq/=.
  by eapply list_elem_of_lookup_2.
Qed.

Lemma upload_accepted (req : UploadRequest) (f : UploadedFile) (uuid : string) (now : Z)
    (s : State) :
  file req = Some f →
  multer_refuses f = None →
  upload config cwd req uuid now s
  = (uploaded config cwd req f uuid now s,
     Json 201 (BUploaded uuid (string_or (body_title req) (originalname f)) Processing
                 ("/streaming/videos/" +:+ f_filename f))).
Proof.
  intros Hf Hm. unfold upload, uploadHandler. rewrite Hf, Hm.
  unfold processVideo_start. cbn [videos with_videos with_heap with_fs heap].
  rewrite JsMap_get_set_eq.
  unfold mutate, with_videos, with_jobs, with_heap, with_fs.
  cbn [heap videos jobs fs processingQueue].
  rewrite (alter_snoc (Video.set_status Processing)).
  rewrite (alter_snoc (Video.set_updatedAt now)).
  rewrite lookup_app_r, Nat.sub_diag by done.
  reflexivity.
Qed.

(** When the disk storage can write the file, the route is [upload]. *)
Lemma postUpload_stored (req : UploadRequest) (f : UploadedFile) (uuid : string) (now : Z)
    (s : State) :
  file req = Some f →
  Fs.write_error (fs s) (stored_at config cwd f) = None →
  postUpload config cwd req uuid now s = upload config cwd req uuid now s.
Proof.
  intros Hf Hw. unfold postUpload. rewrite Hf, Hw. by case_bool_decide.
Qed.

(** The route either stops in front of the handler or is [upload]. *)
Lemma postUpload_cases (req : UploadRequest) (uuid : string) (now : Z) (s : State) :
  (postUpload config cwd req uuid now s).1 = s ∨
  postUpload config cwd req uuid now s = upload config cwd req uuid now s.
Proof.
  unfold postUpload. destruct (file req) as [f|]; [|by right].
  case_bool_decide; [|by right].
  destruct (Fs.write_error (fs s) (stored_at config cwd f)); [by left|by right].
Qed.

Lemma registry_get_uploaded (req : UploadRequest) (f : UploadedFile) (uuid : string)
    (now : Z) (s : State) :
  registry_get (uploaded config cwd req f uuid now s) uuid
  = Some (Video.set_updatedAt now (Video.set_status Processing (new_video req f uuid now))).
Proof.
  unfold registry_get, uploaded. cbn [videos heap].
  rewrite JsMap_get_set_eq. simpl.
  by rewrite lookup_app_r, Nat.sub_diag.
Qed.

(** C7, on the code: the summary of an accepted upload reports the status
    the synchronous prefix of [processVideo] has already written into the
    shared record, [Processing]; the registry holds the same record. *)
Theorem upload_summary_reports_processing (req : UploadRequest) (f : UploadedFile)
    (uuid : string) (now : Z) (s : State) :
  file req = Some f →
  multer_refuses f = None →
  (upload config cwd req uuid now s).2
  = Json 201 (BUploaded uuid (string_or (body_title req) (originalname f)) Processing
                ("/streaming/videos/" +:+ f_filename f)) ∧
  Video.status <$> registry_get (upload config cwd req uuid now s).1 uuid = Some Processing.
Proof.
  intros Hf Hm. rewrite (upload_accepted req f) by done. split; [done|].
  cbn [fst]. by rewrite registry_get_uploaded.
Qed.

(** An accepted upload starts its job at once, whatever the number of jobs
    already in flight, and leaves the queue untouched. *)
Lemma upload_starts_job_unconditionally (req : UploadRequest) (f : UploadedFile)
    (uuid : string) (now : Z) (s : State) :
  file req = Some f →
  multer_refuses f = None →
  let s' := (upload config cwd req uuid now s).1 in
  length (jobs s') = S (length (jobs s)) ∧ processingQueue s' = processingQueue s.
Proof.
  intros Hf Hm. rewrite (upload_accepted req f) by done. cbn [fst uploaded jobs processingQueue].
  split; [|done]. rewrite length_app. simpl. lia.
Qed.

(** *** The invariant *)

Lemma consistent_initial (files : Fs.t) : consistent (initial files).
Proof. split; simpl; constructor. Qed.

Lemma consistent_same_parts (s s' : State) :
  heap s' = heap s → jobs s' = jobs s → consistent s → consistent s'.
Proof.
  intros Hh Hj [H1 H2 H3]. split.
  - by rewrite Hh.
  - rewrite Hj. eapply Forall_impl; [exact H2|].
    intros j (v & ? & ?). exists v. by rewrite Hh.
  - by rewrite Hj.
Qed.

Lemma in_flight_bound (s : State) (j : Job) :
  in_flight s j → (job_video j < length (heap s))%nat.
Proof. intros (v & Hv & _). by eapply lookup_lt_Some. Qed.

Lemma consistent_uploaded (req : UploadRequest) (f : UploadedFile) (uuid : string)
    (now : Z) (s : State) :
  consistent s → consistent (uploaded config cwd req f uuid now s).
Proof.
  intros [H1 H2 H3]. split; cbn [uploaded heap jobs].
  - apply Forall_app. split; [done|]. constructor; [|constructor].
    unfold manifest_iff_ready. simpl. split; [by intros [? ?]|done].
  - apply Forall_app. split.
    + eapply Forall_impl; [exact H2|]. intros j (v & Hv & ?).
      exists v. split; [|done]. unfold uploaded. cbn [heap].
      by apply lookup_app_l_Some.
    + constructor; [|constructor]. unfold in_flight, uploaded. cbn [heap job_video].
      eexists. rewrite lookup_app_r, Nat.sub_diag by done. by repeat split.
  - rewrite fmap_app. apply NoDup_app. repeat split; [done| |].
    + intros l Hl Hin. apply list_elem_of_fmap in Hl as (j & -> & Hj).
      rewrite Forall_forall in H2. apply H2, in_flight_bound in Hj.
      simpl in Hin. apply list_elem_of_singleton in Hin. lia.
    + simpl. apply NoDup_singleton.
Qed.

(** A step of a call that leaves status and references alone. *)
Lemma consistent_advance (s s' : State) (i : nat) (j : Job) (p : Await)
    (F : Video.t → Video.t) :
  (∀ v, Video.status (F v) = Video.status v ∧
        Video.streamingUrls (F v) = Video.streamingUrls v ∧
        Video.thumbnailUrl (F v) = Video.thumbnailUrl v) →
  jobs s !! i = Some j →
  heap s' = alter F (job_video j) (heap s) →
  jobs s' = <[i := at_point p j]> (jobs s) →
  consistent s → consistent s'.
Proof.
  intros HF Hj Hh Hjs [H1 H2 H3]. split.
  - rewrite Hh. apply Forall_alter; [done|].
    intros v _. unfold manifest_iff_ready.
    destruct (HF v) as (-> & -> & _). done.
  - assert (∀ j', in_flight s j' → in_flight s' j') as Hkeep.
    { intros j' (v & Hv & Hst & Hu & Ht). unfold in_flight. rewrite Hh.
      destruct (decide (job_video j = job_video j')) as [Heq|Hne].
      - exists (F v). rewrite Heq, list_lookup_alter_eq, Hv.
        destruct (HF v) as (-> & -> & ->). done.
      - exists v. by rewrite list_lookup_alter_ne. }
    rewrite Hjs. apply Forall_insert.
    + eapply Forall_impl; [exact H2|]. exact Hkeep.
    + apply (Hkeep j). rewrite Forall_lookup in H2. by eapply H2.
  - rewrite Hjs, list_fmap_insert. cbn [at_point job_video].
    rewrite list_insert_id; [done|].
    by rewrite list_lookup_fmap, Hj.
Qed.

Lemma NoDup_not_in_delete {A} (l : list A) (i : nat) (x : A) :
  NoDup l → l !! i = Some x → x ∉ delete i l.
Proof.
  intros Hl Hi. rewrite delete_take_drop.
  rewrite <- (take_drop_middle l i x Hi) in Hl.
  apply NoDup_app in Hl as (_ & Hdisj & Hr).
  apply NoDup_cons in Hr as [Hx _].
  intros [Hin|Hin]%elem_of_app; [|done].
  apply (Hdisj x Hin). by left.
Qed.

(** The last step of a call, to [Ready] or to [Error]. *)
Lemma consistent_finish (s s' : State) (i : nat) (j : Job) (F : Video.t → Video.t) :
  (∀ v, Video.status v = Processing → Video.streamingUrls v = None →
        manifest_iff_ready (F v)) →
  jobs s !! i = Some j →
  heap s' = alter F (job_video j) (heap s) →
  jobs s' = delete i (jobs s) →
  consistent s → consistent s'.
Proof.
  intros HF Hj Hh Hjs [H1 H2 H3].
  assert (in_flight s j) as (v & Hv & Hst & Hu & _).
  { rewrite Forall_lookup in H2. by eapply H2. }
  split.
  - rewrite Hh. apply Forall_alter; [done|].
    intros v' Hv' _. simplify_eq. by apply HF.
  - rewrite Hjs. apply Forall_forall. intros j' Hj'.
    assert (job_video j' ≠ job_video j) as Hne.
    { intros Heq.
      apply (NoDup_not_in_delete (job_video <$> jobs s) i (job_video j)); [done| |].
      - by rewrite list_lookup_fmap, Hj.
      - rewrite <- list_fmap_delete, <- Heq. by apply list_elem_of_fmap_2. }
    assert (j' ∈ jobs s) as Hin.
    { eapply elem_of_sublist; [exact Hj'|apply sublist_delete]. }
    rewrite Forall_forall in H2. destruct (H2 j' Hin) as (v' & Hv' & ?).
    exists v'. by rewrite Hh, list_lookup_alter_ne.
  - rewrite Hjs, list_fmap_delete.
    eapply sublist_NoDup; [exact H3|apply sublist_delete].
Qed.

(** A call that stalls leaves everything but the list of calls. *)
Lemma consistent_stalled (s : State) (i : nat) :
  consistent s → consistent (with_jobs (delete i (jobs s)) s).
Proof.
  intros [H1 H2 H3]. split; cbn [with_jobs heap jobs].
  - done.
  - apply Forall_forall. intros j' Hj'. rewrite Forall_forall in H2.
    apply (H2 j'). eapply elem_of_sublist; [exact Hj'|apply sublist_delete].
  - rewrite list_fmap_delete.
    eapply sublist_NoDup; [exact H3|apply sublist_delete].
Qed.

Lemma resume_consistent (i : nat) (o : Outcome) (now : Z) (s : State) :
  consistent s → consistent (resume config cwd i o now s).
Proof.
  intros Hs. unfold resume.
  destruct (jobs s !! i) as [j|] eqn:Hj; [|done].
  unfold processVideo_resume.
  destruct o as [probed|].
  - destruct (job_at j) eqn:Hat.
    + eapply (consistent_advance s _ i j AwaitThumbnail id); try done.
      by rewrite list_alter_id.
    + eapply (consistent_advance s _ i j AwaitMetadata id); try done.
      by rewrite list_alter_id.
    + destruct (wants_hls config).
      * eapply (consistent_advance s _ i j AwaitHLS (Video.set_duration probed));
          done.
      * eapply (consistent_finish s _ i j); [|done| |done|done].
        2:{ unfold processVideo_finish, mutate, with_videos, with_jobs, with_heap.
            cbn [heap]. rewrite !list_alter_alter_eq. reflexivity. }
        intros v _ _. unfold manifest_iff_ready. simpl. split; [done|by eexists].
    + destruct (end_listener config cwd (job_videoId j) (fs s)) as [files|];
        [|by apply consistent_stalled].
      eapply (consistent_finish s _ i j); [|done| |done|done].
      2:{ unfold processVideo_finish, mutate, with_videos, with_jobs, with_heap, with_fs.
          cbn [heap]. rewrite !list_alter_alter_eq. reflexivity. }
      intros v _ _. unfold manifest_iff_ready. simpl. split; [done|by eexists].
  - eapply (consistent_finish s _ i j); [|done| |done|done].
    2:{ unfold processVideo_catch, mutate, with_videos, with_jobs, with_heap.
        cbn [heap]. rewrite !list_alter_alter_eq. reflexivity. }
    intros v _ Hu. unfold manifest_iff_ready. simpl. rewrite Hu.
    split; [by intros [? ?]|done].
Qed.

Lemma step_consistent (e : Event) (s : State) :
  consistent s → consistent (step config cwd e s).
Proof.
  intros Hs. destruct e as [req uuid now|i o now|id completed|files]; cbn [step].
  - destruct (postUpload_cases req uuid now s) as [->| ->]; [done|].
    destruct (file req) as [f|] eqn:Hf.
    + destruct (multer_refuses f) eqn:Hm.
      * unfold upload. by rewrite Hf, Hm.
      * rewrite (upload_accepted req f) by done. by apply consistent_uploaded.
    + unfold upload, uploadHandler. by rewrite Hf.
  - by apply resume_consistent.
  - unfold deleteVideo. destruct (registry_get s id); [|done].
    by apply (consistent_same_parts s).
  - by apply (consistent_same_parts s).
Qed.

Lemma reachable_consistent (s : State) : reachable config cwd s → consistent s.
Proof.
  induction 1 as [files|e s _ IH]; [apply consistent_initial|by apply step_consistent].
Qed.

(** A rejected promise ends the call in the [catch] block. *)
Lemma failure_marks_error (i : nat) (j : Job) (now : Z) (s : State) :
  consistent s →
  jobs s !! i = Some j →
  ∃ v, registry_get (resume config cwd i Rejected now s) (job_videoId j) = Some v ∧
       Video.status v = Error ∧
       Video.streamingUrls v = None ∧
       Video.thumbnailUrl v = None ∧
       job_video j ∉ job_video <$> jobs (resume config cwd i Rejected now s).
Proof.
  intros [H1 H2 H3] Hj.
  assert (in_flight s j) as (v & Hv & Hst & Hu & Ht).
  { rewrite Forall_lookup in H2. by eapply H2. }
  unfold resume. rewrite Hj. cbn [processVideo_resume].
  unfold processVideo_catch, mutate, registry_get, with_videos, with_jobs, with_heap.
  cbn [heap videos jobs].
  rewrite JsMap_get_set_eq. cbn [mbind option_bind].
  rewrite !list_lookup_alter_eq, Hv. cbn [fmap option_fmap option_map].
  eexists. split; [done|]. simpl. repeat split; [done..|].
  rewrite list_fmap_delete. apply NoDup_not_in_delete; [done|].
  by rewrite list_lookup_fmap, Hj.
Qed.

(** *** Running a call to its end *)

Lemma drive_failure (n i : nat) (j : Job) (engine : Await → Outcome) (now : Z) (s : State) :
  consistent s →
  jobs s !! i = Some j →
  engine (job_at j) = Rejected →
  drive config cwd (S n) engine now i (job_video j) s = resume config cwd i Rejected now s.
Proof.
  intros Hs Hj Hrej. cbn [drive]. rewrite Hj, decide_True by done. rewrite Hrej.
  destruct (failure_marks_error i j now s Hs Hj) as (_ & _ & _ & _ & _ & Hgone).
  destruct n as [|n]; [done|]. cbn [drive].
  destruct (jobs (resume config cwd i Rejected now s) !! i) as [j'|] eqn:Hj'; [|done].
  case_decide as Heq; [|done].
  exfalso. apply Hgone. rewrite <- Heq.
  apply list_elem_of_fmap_2. by eapply list_elem_of_lookup_2.
Qed.

Lemma resume_ensureDir (i : nat) (j : Job) (probed : option Z) (now : Z) (s : State) :
  jobs s !! i = Some j →
  job_at j = AwaitEnsureDir →
  jobs (resume config cwd i (Resolved probed) now s) !! i = Some (at_point AwaitThumbnail j).
Proof.
  intros Hj Hat. unfold resume. rewrite Hj. cbn [processVideo_resume]. rewrite Hat.
  cbn [with_jobs with_fs jobs]. apply list_lookup_insert_eq. by eapply lookup_lt_Some.
Qed.

(** C2 (amended): thumbnail extraction is awaited inside the same [try] as
    every other step and before the probe, so its failure ends the call in
    the [catch] block: the record gets status [Error], without thumbnail or
    manifest reference, whatever the probe and the encodes would have done. *)
Theorem thumbnail_failure_is_fatal (s : State) (i : nat) (j : Job)
    (engine : Await → Outcome) (now : Z) :
  reachable config cwd s →
  jobs s !! i = Some j →
  job_at j = AwaitEnsureDir ∨ job_at j = AwaitThumbnail →
  engine AwaitThumbnail = Rejected →
  ∃ v, registry_get (drive config cwd 4 engine now i (job_video j) s) (job_videoId j)
       = Some v ∧
       Video.status v = Error ∧ Video.thumbnailUrl v = None ∧
       Video.streamingUrls v = None.
Proof.
  intros Hs%reachable_consistent Hj Hat Hthumb.
  assert (∀ n s1 j1, consistent s1 → jobs s1 !! i = Some j1 →
            engine (job_at j1) = Rejected →
            ∃ v, registry_get (drive config cwd (S n) engine now i (job_video j1) s1)
                   (job_videoId j1) = Some v ∧
                 Video.status v = Error ∧ Video.thumbnailUrl v = None ∧
                 Video.streamingUrls v = None) as Hfail.
  { intros n s1 j1 Hs1 Hj1 Hrej. rewrite drive_failure by done.
    destruct (failure_marks_error i j1 now s1 Hs1 Hj1) as (v & ? & ? & ? & ? & _).
    by exists v. }
  destruct Hat as [Hat|Hat]; [|apply Hfail; [done..|by rewrite Hat]].
  destruct (engine AwaitEnsureDir) as [probed|] eqn:Hdir;
    [|apply Hfail; [done..|by rewrite Hat]].
  cbn [drive]. rewrite Hj, decide_True by done. rewrite Hat, Hdir.
  apply (Hfail 2%nat _ (at_point AwaitThumbnail j)).
  - by apply resume_consistent.
  - by apply resume_ensureDir.
  - done.
Qed.

(** *** Reading routes *)

(** C3 (amended): for an id whose record is not [Ready] (so in particular
    [Uploading] or [Processing]) the playlist route answers 404 "Video not
    ready for streaming" and sends no manifest; an unknown id gets the very
    same response. *)
Theorem playlist_not_ready_is_404 (s : State) (id : string) (v : Video.t) :
  registry_get s id = Some v →
  Video.status v ≠ Ready →
  getPlaylist config cwd id s = Json 404 (BError "Video not ready for streaming") ∧
  served_content s (getPlaylist config cwd id s) = None ∧
  ∀ id', registry_get s id' = None →
         getPlaylist config cwd id' s = getPlaylist config cwd id s.
Proof.
  intros Hv Hst.
  assert (getPlaylist config cwd id s = Json 404 (BError "Video not ready for streaming"))
    as Hresp.
  { unfold getPlaylist. rewrite Hv. cbn [not_ready].
    by rewrite bool_decide_false. }
  rewrite Hresp. repeat split.
  intros id' Hnone. unfold getPlaylist. by rewrite Hnone.
Qed.

End ServiceProperties.

Lemma js_slice_window {A} (l : list A) (a n : Z) :
  0 ≤ a → 0 ≤ n →
  js_slice l a (a + n) = take (Z.to_nat n) (drop (Z.to_nat a) l).
Proof.
  intros Ha Hn. unfold js_slice.
  rewrite !bool_decide_false by lia.
  destruct (decide (a ≤ Z.of_nat (length l))) as [Hle|Hgt].
  - rewrite (Z.min_l a) by done.
    destruct (decide (a + n ≤ Z.of_nat (length l))) as [Hle'|Hgt'].
    + rewrite Z.min_l by done. do 2 f_equal. lia.
    + rewrite Z.min_r by lia.
      rewrite !take_ge; [done| |]; rewrite length_drop; lia.
  - rewrite !Z.min_r by lia. rewrite Z.sub_diag. simpl.
    rewrite (drop_ge l (Z.to_nat a)) by lia. by rewrite take_nil.
Qed.

Lemma filter_all {A} (P : A → Prop) `{!∀ x, Decision (P x)} (l : list A) :
  (∀ x, P x) → filter P l = l.
Proof.
  intros HP. induction l as [|x l IH]; [done|].
  rewrite filter_cons, decide_True by done. by rewrite IH.
Qed.

Lemma filter_by_matches {A} (param : option string) (key : A → string) (l : list A) :
  filter_by param key l = filter (matches_param param key) l.
Proof.
  unfold filter_by. destruct param as [p|].
  - destruct (Js.truthy_string p) eqn:Hp.
    + apply list_filter_iff. intros v. unfold matches_param. by rewrite Hp.
    + symmetry. apply filter_all. intros v. unfold matches_param. by rewrite Hp.
  - symmetry. by apply filter_all.
Qed.

(** C8 (amended): the list route returns the requested page of the records
    that match every supplied filter, in the insertion order of the registry
    map (oldest entry first; nothing is sorted), with the number of matching
    records as total. *)
Theorem listVideos_page (q : ListQuery) (s : State) :
  1 ≤ default 1 (q_page q) →
  0 ≤ default 10 (q_limit q) →
  let page := default 1 (q_page q) in
  let limit := default 10 (q_limit q) in
  let matching := filter (matches q) (registry_values s) in
  listVideos q s
  = Json 200 (BList (take (Z.to_nat limit) (drop (Z.to_nat ((page - 1) * limit)) matching))
                    page limit (Z.of_nat (length matching))
                    (ceil_div (Z.of_nat (length matching)) limit)) ∧
  listed_videos (listVideos q s) `sublist_of` registry_values s.
Proof.
  intros Hpage Hlimit page limit matching.
  assert (filter_by (q_status q) (λ v, status_string (Video.status v))
            (filter_by (q_userId q) Video.userId (registry_values s)) = matching) as Hm.
  { rewrite !filter_by_matches, list_filter_filter.
    apply list_filter_iff. intros v. unfold matches. tauto. }
  assert (listVideos q s
          = Json 200 (BList (take (Z.to_nat limit)
                               (drop (Z.to_nat ((page - 1) * limit)) matching))
                        page limit (Z.of_nat (length matching))
                        (ceil_div (Z.of_nat (length matching)) limit))) as Hresp.
  { unfold listVideos. rewrite Hm. fold page limit.
    rewrite js_slice_window by nia. done. }
  split; [exact Hresp|]. rewrite Hresp. cbn [listed_videos].
  etrans; [apply sublist_take|]. etrans; [apply sublist_drop|].
  apply sublist_filter.
Qed.

(** ** Paths *)

Lemma normalize_go_nil (allow : bool) (st : list string) :
  Path.normalize_go allow st [] = reverse st.
Proof. reflexivity. Qed.

Lemma normalize_go_skip (allow : bool) (st segs : list string) (seg : string) :
  seg = EmptyString ∨ seg = "." →
  Path.normalize_go allow st (seg :: segs) = Path.normalize_go allow st segs.
Proof. intros H. cbn [Path.normalize_go]. by rewrite bool_decide_true. Qed.

Lemma normalize_go_push (allow : bool) (st segs : list string) (seg : string) :
  seg ≠ EmptyString → seg ≠ "." → seg ≠ ".." →
  Path.normalize_go allow st (seg :: segs) = Path.normalize_go allow (seg :: st) segs.
Proof.
  intros H1 H2 H3. cbn [Path.normalize_go].
  rewrite bool_decide_false by tauto. by rewrite bool_decide_false.
Qed.

Lemma normalize_go_up (allow : bool) (st segs : list string) :
  Path.normalize_go allow st (".." :: segs) = Path.normalize_go allow (pop allow st) segs.
Proof.
  cbn [Path.normalize_go].
  rewrite bool_decide_false by (intros [?|?]; discriminate).
  rewrite bool_decide_true by done.
  destruct st as [|top st']; [done|]. cbn [pop]. by destruct (bool_decide (top = "..")).
Qed.

Lemma segment_cases (seg : string) :
  (seg = EmptyString ∨ seg = ".") ∨ seg = ".." ∨
  (seg ≠ EmptyString ∧ seg ≠ "." ∧ seg ≠ "..").
Proof.
  destruct (decide (seg = EmptyString)); [tauto|].
  destruct (decide (seg = ".")); [tauto|].
  destruct (decide (seg = "..")); tauto.
Qed.

(** Normalising a concatenation continues from the normal form of its
    first part. *)
Lemma normalize_go_app (allow : bool) (st xs ys : list string) :
  Path.normalize_go allow st (xs ++ ys)
  = Path.normalize_go allow (reverse (Path.normalize_go allow st xs)) ys.
Proof.
  revert st. induction xs as [|seg xs IH]; intros st.
  - by rewrite app_nil_l, normalize_go_nil, reverse_involutive.
  - rewrite <- app_comm_cons.
    destruct (segment_cases seg) as [Hs|[->|(H1 & H2 & H3)]].
    + by rewrite !normalize_go_skip.
    + by rewrite !normalize_go_up.
    + by rewrite !normalize_go_push.
Qed.

(** Segments without [".."] only ever extend the path. *)
Lemma normalize_go_descend (allow : bool) (st ys : list string) :
  ".." ∉ ys →
  Path.normalize_go allow st ys
  = reverse st ++ filter (λ x, ¬ (x = EmptyString ∨ x = ".")) ys.
Proof.
  revert st. induction ys as [|seg ys IH]; intros st Hup.
  - by rewrite normalize_go_nil, app_nil_r.
  - apply not_elem_of_cons in Hup as [Hseg Hup].
    rewrite filter_cons.
    destruct (segment_cases seg) as [Hs|[->|(H1 & H2 & H3)]]; [| done |].
    + rewrite normalize_go_skip by done. rewrite decide_False by tauto. by apply IH.
    + rewrite normalize_go_push by done. rewrite decide_True by tauto.
      rewrite IH by done. by rewrite reverse_cons, <- app_assoc.
Qed.

Lemma split_on_pieces (c : ascii) (s : string) :
  Forall (λ w, Str.mem_char c w = false) (Str.split_on c s).
Proof.
  induction s as [|a s IH]; cbn [Str.split_on].
  - by constructor.
  - case_decide as Ha; [by constructor|].
    pose proof (split_on_nonempty c s) as Hne.
    destruct (Str.split_on c s) as [|w ws]; [done|].
    apply Forall_cons in IH as [Hw Hws]. constructor; [|done].
    simpl. by rewrite decide_False.
Qed.

Lemma normalize_go_kept (allow : bool) (st segs : list string) :
  Forall kept st →
  Forall (λ w, Str.mem_char "/"%char w = false) segs →
  Forall kept (Path.normalize_go allow st segs).
Proof.
  revert st. induction segs as [|seg segs IH]; intros st Hst Hsegs.
  - rewrite normalize_go_nil. by apply Forall_reverse.
  - apply Forall_cons in Hsegs as [Hseg Hsegs].
    destruct (segment_cases seg) as [Hs|[->|(H1 & H2 & H3)]].
    + rewrite normalize_go_skip by done. by apply IH.
    + rewrite normalize_go_up. apply IH; [|done].
      assert (kept "..") as Hup by (by repeat split).
      destruct st as [|top st']; cbn [pop].
      * destruct allow; repeat first [assumption | apply Forall_cons_2 | apply Forall_nil_2].
      * apply Forall_cons in Hst as [? ?].
        destruct (bool_decide (top = "..")); [destruct allow|];
          repeat first [assumption | apply Forall_cons_2 | apply Forall_nil_2].
    + rewrite normalize_go_push by done. apply IH; [|done].
      constructor; [|done]. by repeat split.
Qed.

(** Normalising a normal form under a stack: the leading [".."] segments
    of a relative normal form are replayed on the outer stack. *)
Lemma normalize_go_absorb (segs inner st : list string) :
  Forall (λ x, x ≠ EmptyString ∧ x ≠ ".") inner →
  Path.normalize_go false st (Path.normalize_go true inner segs)
  = Path.normalize_go false
      (reverse (Path.normalize_go false st (reverse inner))) segs.
Proof.
  revert inner. induction segs as [|seg segs IH]; intros inner Hin.
  - by rewrite !normalize_go_nil, reverse_involutive.
  - destruct (segment_cases seg) as [Hs|[->|(H1 & H2 & H3)]].
    + rewrite !normalize_go_skip by done. by apply IH.
    + rewrite !normalize_go_up.
      destruct inner as [|top inner']; cbn [pop].
      * rewrite IH by (apply Forall_cons_2; [by repeat split|apply Forall_nil_2]).
        f_equal. change (reverse [".."]) with [".."].
        change (reverse (@nil string)) with (@nil string).
        rewrite normalize_go_up, !normalize_go_nil.
        by rewrite !reverse_involutive.
      * apply Forall_cons in Hin as [(Ht1 & Ht2) Hin'].
        destruct (bool_decide (top = "..")) eqn:Htop.
        -- apply bool_decide_eq_true in Htop as ->.
           rewrite IH by (repeat apply Forall_cons_2; by repeat split).
           f_equal. rewrite (reverse_cons (".." :: inner')).
           rewrite normalize_go_app.
           by rewrite normalize_go_up, normalize_go_nil, reverse_involutive.
        -- apply bool_decide_eq_false in Htop.
           rewrite IH by done. f_equal.
           rewrite (reverse_cons inner'), normalize_go_app.
           rewrite normalize_go_push, normalize_go_nil by done.
           rewrite reverse_involutive. cbn [pop].
           rewrite bool_decide_false by done. done.
    + rewrite !normalize_go_push by done.
      rewrite IH by (constructor; [by repeat split|done]).
      f_equal. rewrite (reverse_cons inner), normalize_go_app.
      rewrite normalize_go_push, normalize_go_nil by done.
      by rewrite reverse_involutive.
Qed.

Lemma split_on_plain (c : ascii) (x : string) :
  Str.mem_char c x = false → Str.split_on c x = [x].
Proof.
  induction x as [|a x IH]; [done|].
  simpl. case_decide; [done|]. intros Hx. by rewrite IH.
Qed.

Lemma slash_append (t : string) : "/" +:+ t = String "/"%char t.
Proof. reflexivity. Qed.

Lemma segments_join (x : string) (l : list string) :
  Path.segments (Str.join "/" (x :: l)) = concat (Path.segments <$> (x :: l)).
Proof.
  revert x. induction l as [|y l IH]; intros x.
  - simpl. by rewrite app_nil_r.
  - change (Str.join "/" (x :: y :: l)) with (x +:+ "/" +:+ Str.join "/" (y :: l)).
    unfold Path.segments in *. rewrite slash_append, split_on_sep, IH. done.
Qed.

Lemma segments_join_kept (x : string) (l : list string) :
  Forall kept (x :: l) → Path.segments (Str.join "/" (x :: l)) = x :: l.
Proof.
  revert x. induction l as [|y l IH]; intros x [(_ & _ & Hx) Hl]%Forall_cons.
  - by apply split_on_plain.
  - change (Str.join "/" (x :: y :: l)) with (x +:+ "/" +:+ Str.join "/" (y :: l)).
    unfold Path.segments in *. rewrite slash_append, split_on_first by done.
    by rewrite IH.
Qed.

Lemma append_nonempty (x t : string) : x ≠ EmptyString → x +:+ t ≠ EmptyString.
Proof. by destruct x. Qed.

Lemma join_nonempty (x : string) (l : list string) :
  x ≠ EmptyString → Str.join "/" (x :: l) ≠ EmptyString.
Proof.
  intros Hx. destruct l as [|y l]; [done|].
  change (Str.join "/" (x :: y :: l)) with (x +:+ "/" +:+ Str.join "/" (y :: l)).
  by apply append_nonempty.
Qed.

Lemma starts_with_append (p : ascii) (x t : string) :
  x ≠ EmptyString →
  Str.starts_with (String p EmptyString) (x +:+ t)
  = Str.starts_with (String p EmptyString) x.
Proof.
  destruct x as [|a x]; [done|]. intros _. rewrite append_cons. simpl.
  by case_decide.
Qed.

Lemma is_absolute_join (x : string) (l : list string) :
  x ≠ EmptyString → Path.is_absolute (Str.join "/" (x :: l)) = Path.is_absolute x.
Proof.
  intros Hx. destruct l as [|y l]; [done|].
  change (Str.join "/" (x :: y :: l)) with (x +:+ "/" +:+ Str.join "/" (y :: l)).
  by apply starts_with_append.
Qed.

Lemma kept_not_absolute (x : string) : kept x → Path.is_absolute x = false.
Proof.
  intros (Hx & _ & Hs). destruct x as [|a x]; [done|].
  simpl in Hs. destruct (decide (a = "/"%char)) as [->|Hne]; [done|].
  unfold Path.is_absolute. simpl. by rewrite decide_False.
Qed.

Lemma normalize_go_trailing (st segs : list string) :
  Path.normalize_go false st (segs ++ [EmptyString]) = Path.normalize_go false st segs.
Proof.
  rewrite normalize_go_app, normalize_go_skip by tauto.
  by rewrite normalize_go_nil, reverse_involutive.
Qed.

(** The string [path.normalize] returns has the segments of the normal
    form, up to empty ones. *)
Lemma normalize_segments (X : string) :
  X ≠ EmptyString →
  Path.is_absolute (Path.normalize X) = Path.is_absolute X ∧
  ∀ st, Path.normalize_go false st (Path.segments (Path.normalize X))
        = Path.normalize_go false st
            (Path.normalize_go (negb (Path.is_absolute X)) [] (Path.segments X)).
Proof.
  intros HX. unfold Path.normalize. rewrite bool_decide_false by done.
  assert (Forall kept
            (Path.normalize_go (negb (Path.is_absolute X)) [] (Path.segments X))) as HC.
  { apply normalize_go_kept; [constructor|apply split_on_pieces]. }
  destruct (Path.normalize_go (negb (Path.is_absolute X)) [] (Path.segments X))
    as [|x C] eqn:EC.
  - cbn [Str.join]. rewrite bool_decide_true by done.
    destruct (Path.is_absolute X), (Str.ends_with_char "/" X); split; try done;
      intros st; unfold Path.segments; simpl;
      by rewrite ?normalize_go_skip by tauto.
  - pose proof HC as [Hx _]%Forall_cons.
    assert (Str.join "/" (x :: C) ≠ EmptyString) as Hbody by (apply join_nonempty, Hx).
    rewrite bool_decide_false by done.
    assert (∀ st, Path.normalize_go false st
                    (Path.segments
                       (if Str.ends_with_char "/" X
                        then Str.join "/" (x :: C) +:+ "/" else Str.join "/" (x :: C)))
                  = Path.normalize_go false st (x :: C)) as Hsegs.
    { intros st. destruct (Str.ends_with_char "/" X).
      - unfold Path.segments. change "/" with (String "/"%char EmptyString) at 2.
        rewrite split_on_sep. fold (Path.segments (Str.join "/" (x :: C))).
        rewrite segments_join_kept by done.
        apply normalize_go_trailing.
      - by rewrite segments_join_kept. }
    destruct (Path.is_absolute X); split.
    + done.
    + intros st. rewrite slash_append. unfold Path.segments. cbn [Str.split_on].
      rewrite decide_True by done. rewrite normalize_go_skip by tauto.
      apply Hsegs.
    + transitivity (Path.is_absolute (Str.join "/" (x :: C))).
      * destruct (Str.ends_with_char "/" X); [|done].
        by apply starts_with_append.
      * rewrite is_absolute_join by apply Hx. by apply kept_not_absolute.
    + apply Hsegs.
Qed.

Lemma filter_Forall_id {A} (P : A → Prop) `{!∀ x, Decision (P x)} (l : list A) :
  Forall P l → filter P l = l.
Proof.
  induction 1 as [|x l Hx _ IH]; [done|].
  rewrite filter_cons, decide_True by done. by rewrite IH.
Qed.

Lemma normalize_go_absolute_idem (segs : list string) :
  Forall (λ w, Str.mem_char "/"%char w = false) segs →
  Path.normalize_go false [] (Path.normalize_go false [] segs)
  = Path.normalize_go false [] segs.
Proof.
  intros Hsegs.
  assert (∀ st, ".." ∉ st → ".." ∉ Path.normalize_go false st segs) as Hup.
  { clear Hsegs. induction segs as [|seg segs IH]; intros st Hst.
    - rewrite normalize_go_nil. by rewrite elem_of_reverse.
    - destruct (segment_cases seg) as [Hs|[->|(H1 & H2 & H3)]].
      + rewrite normalize_go_skip by done. by apply IH.
      + rewrite normalize_go_up. apply IH.
        destruct st as [|top st']; cbn [pop]; [done|].
        apply not_elem_of_cons in Hst as [? ?].
        by destruct (bool_decide (top = "..")); [apply not_elem_of_cons|].
      + rewrite normalize_go_push by done. apply IH.
        by apply not_elem_of_cons. }
  rewrite normalize_go_descend by (apply Hup, not_elem_of_nil).
  change (reverse (@nil string)) with (@nil string). rewrite app_nil_l.
  apply filter_Forall_id.
  eapply Forall_impl; [apply normalize_go_kept; [constructor|exact Hsegs]|].
  intros x (? & ? & _). tauto.
Qed.

Section Resolve.

Variable cwd : string.

(** [path.resolve] does not see whether its argument was normalised. *)
Lemma resolve_normalize (X : string) :
  X ≠ EmptyString → Path.resolve cwd (Path.normalize X) = Path.resolve cwd X.
Proof.
  intros HX. destruct (normalize_segments X HX) as [Habs Hsegs].
  unfold Path.resolve. rewrite Habs.
  destruct (Path.is_absolute X) eqn:HabsX.
  - rewrite Hsegs. cbn [negb]. apply normalize_go_absolute_idem, split_on_pieces.
  - rewrite !(normalize_go_app false [] (Path.segments cwd)).
    rewrite Hsegs. cbn [negb].
    rewrite normalize_go_absorb by constructor.
    change (reverse (@nil string)) with (@nil string).
    by rewrite normalize_go_nil, reverse_involutive.
Qed.

Lemma normalize_go_parts (st : list string) (rest : list string) :
  Path.normalize_go false st (concat (Path.segments <$> filter (λ a, a ≠ EmptyString) rest))
  = Path.normalize_go false st (concat (Path.segments <$> rest)).
Proof.
  revert st. induction rest as [|r rest IH]; intros st; [done|].
  rewrite filter_cons. destruct (decide (r ≠ EmptyString)) as [Hr|Hr].
  - rewrite !fmap_cons. cbn [concat]. rewrite !(normalize_go_app false st). apply IH.
  - apply dec_stable in Hr as ->. rewrite fmap_cons. cbn [concat].
    change (Path.segments EmptyString) with [EmptyString]. cbn [app].
    rewrite normalize_go_skip by tauto. apply IH.
Qed.

(** Resolving a joined path: the segments of the parts, in order, on top of
    the working directory when the first part is relative. *)
Lemma resolve_join (a : string) (rest : list string) :
  a ≠ EmptyString →
  Path.resolve cwd (Path.join (a :: rest))
  = Path.normalize_go false []
      ((if Path.is_absolute a then [] else Path.segments cwd)
       ++ Path.segments a ++ concat (Path.segments <$> rest)).
Proof.
  intros Ha. unfold Path.join. rewrite filter_cons, decide_True by done.
  rewrite resolve_normalize by (by apply join_nonempty).
  unfold Path.resolve. rewrite is_absolute_join by done.
  rewrite segments_join, fmap_cons. cbn [concat].
  destruct (Path.is_absolute a).
  - rewrite app_nil_l, !(normalize_go_app false [] (Path.segments a)).
    apply normalize_go_parts.
  - rewrite !(normalize_go_app false [] (Path.segments cwd)).
    rewrite !(normalize_go_app false _ (Path.segments a)).
    apply normalize_go_parts.
Qed.

End Resolve.

Lemma string_or_nonempty (o : option string) (d : string) :
  d ≠ EmptyString → string_or o d ≠ EmptyString.
Proof.
  intros Hd. unfold string_or. destruct o as [x|]; [|done].
  unfold Js.truthy_string. case_bool_decide; [done|]. done.
Qed.

(** ** The segment route, and runs *)

Section SegmentProperties.

Variable config : StreamingConfig.
Variable cwd : string.

Lemma chunksDir_nonempty : chunksDir config ≠ EmptyString.
Proof. by apply string_or_nonempty. Qed.

Lemma reachable_run (es : list Event) (s : State) :
  reachable config cwd s → reachable config cwd (run config cwd es s).
Proof.
  revert s. induction es as [|e es IH]; intros s Hs; [done|].
  apply IH. by constructor.
Qed.

End SegmentProperties.

(** ** Concrete runs *)

Lemma sample_uploaded_reachable : reachable defaultStreaming sample_cwd sample_uploaded.
Proof. apply reachable_run, reachable_initial. Qed.

Lemma sample_encoding_reachable : reachable defaultStreaming sample_cwd sample_encoding.
Proof. apply reachable_run, sample_uploaded_reachable. Qed.

Lemma sample_ready_reachable : reachable defaultStreaming sample_cwd sample_ready.
Proof. apply reachable_run, sample_encoding_reachable. Qed.

Lemma sample_burst_reachable : reachable defaultStreaming sample_cwd sample_burst.
Proof. apply reachable_run, reachable_initial. Qed.

(** C2 (as stated) fails: the thumbnail extraction of the first upload
    fails, the probe and the encodes would succeed, and the record ends in
    [Error] with nothing after the thumbnail attempted. *)
Lemma thumbnail_failure_reaches_error :
  thumbnail_fails AwaitEnsureDir = Resolved (Some 10) ∧
  thumbnail_fails AwaitMetadata = Resolved (Some 10) ∧
  thumbnail_fails AwaitHLS = Resolved (Some 10) ∧
  Video.status <$>
    registry_get (drive defaultStreaming sample_cwd 4 thumbnail_fails 101 0 0 sample_uploaded)
      "a" = Some Error ∧
  Video.status <$>
    registry_get (drive defaultStreaming sample_cwd 4 all_succeed 101 0 0 sample_uploaded)
      "a" = Some Ready.
Proof. repeat split; vm_compute; reflexivity. Qed.

Lemma thumbnail_failure_is_fatal_witness :
  ∃ v, registry_get (drive defaultStreaming sample_cwd 4 thumbnail_fails 101 0 0
                       sample_uploaded) "a" = Some v ∧
       Video.status v = Error ∧ Video.thumbnailUrl v = None ∧
       Video.streamingUrls v = None.
Proof.
  apply (thumbnail_failure_is_fatal defaultStreaming sample_cwd sample_uploaded 0
           {| job_videoId := "a"; job_video := 0; job_at := AwaitEnsureDir |}
           thumbnail_fails 101).
  - exact sample_uploaded_reachable.
  - vm_compute. reflexivity.
  - left. reflexivity.
  - reflexivity.
Defined.

(** C3 (as stated) fails: the record of the first upload is [Processing],
    and the playlist route answers it with the 404 it gives the unknown id
    ["b"], not with a 400 of its own. *)
Lemma not_ready_answered_like_unknown :
  Video.status <$> registry_get sample_uploaded "a" = Some Processing ∧
  registry_get sample_uploaded "b" = None ∧
  getPlaylist defaultStreaming sample_cwd "a" sample_uploaded
  = Json 404 (BError "Video not ready for streaming") ∧
  getPlaylist defaultStreaming sample_cwd "b" sample_uploaded
  = getPlaylist defaultStreaming sample_cwd "a" sample_uploaded ∧
  ¬ not_ready_is_distinct defaultStreaming sample_cwd sample_uploaded "a".
Proof.
  repeat split; try (vm_compute; reflexivity).
  intros [Hcode _]. vm_compute in Hcode. discriminate.
Qed.

Lemma playlist_not_ready_is_404_witness :
  getPlaylist defaultStreaming sample_cwd "a" sample_uploaded
  = Json 404 (BError "Video not ready for streaming") ∧
  served_content sample_uploaded (getPlaylist defaultStreaming sample_cwd "a" sample_uploaded)
  = None ∧
  ∀ id', registry_get sample_uploaded id' = None →
         getPlaylist defaultStreaming sample_cwd id' sample_uploaded
         = getPlaylist defaultStreaming sample_cwd "a" sample_uploaded.
Proof.
  apply (playlist_not_ready_is_404 defaultStreaming sample_cwd sample_uploaded "a"
           (Video.set_updatedAt 100
              (Video.set_status Processing (new_video sample_request sample_file "a" 100)))).
  - vm_compute. reflexivity.
  - simpl. discriminate.
Defined.

(** C4 (as stated) fails: for the ready video ["a"] the segment name
    ["../../videos/3f2a-1700000000000.mp4"] is not refused; the route sends
    the uploaded original, a file outside the video's output directory. *)
Lemma dotdot_segment_escapes :
  ".." ∈ Path.segments "../../videos/3f2a-1700000000000.mp4" ∧
  getSegment defaultStreaming sample_cwd "a" "../../videos/3f2a-1700000000000.mp4"
    sample_ready
  = SendFile "video/MP2T" ["srv"; "app"; "uploads"; "videos"; "3f2a-1700000000000.mp4"] ∧
  served_content sample_ready
    (getSegment defaultStreaming sample_cwd "a" "../../videos/3f2a-1700000000000.mp4"
       sample_ready) = Some "CAT" ∧
  Path.resolve sample_cwd (outputDir defaultStreaming "a")
  = ["srv"; "app"; "uploads"; "chunks"; "a"] ∧
  ¬ ["srv"; "app"; "uploads"; "chunks"; "a"]
      `prefix_of` ["srv"; "app"; "uploads"; "videos"; "3f2a-1700000000000.mp4"].
Proof.
  repeat split; try (vm_compute; reflexivity).
  - vm_compute. apply list_elem_of_here.
  - intros [k Hk]. discriminate.
Qed.

(** C5, on the code: with the configured limit at 2, three uploads in a row
    leave three calls in their encode at once, and nothing in the queue. *)
Theorem three_encodes_with_limit_two :
  concurrent <$> transcoding defaultStreaming = Some 2 ∧
  job_at <$> jobs sample_burst = [AwaitHLS; AwaitHLS; AwaitHLS] ∧
  job_videoId <$> jobs sample_burst = ["a"; "b"; "c"] ∧
  processingQueue sample_burst = [].
Proof. repeat split; vm_compute; reflexivity. Qed.

Lemma upload_starts_job_unconditionally_witness :
  let s' := (upload defaultStreaming sample_cwd sample_request "d" 112 sample_burst).1 in
  length (jobs s') = S (length (jobs sample_burst)) ∧
  processingQueue s' = processingQueue sample_burst.
Proof.
  apply (upload_starts_job_unconditionally defaultStreaming sample_cwd sample_request
           sample_file "d" 112 sample_burst); reflexivity.
Defined.

Lemma upload_summary_reports_processing_witness :
  (upload defaultStreaming sample_cwd sample_request "a" 100 (initial ∅)).2
  = Json 201 (BUploaded "a" "cat.mp4" Processing "/streaming/videos/3f2a-1700000000000.mp4") ∧
  Video.status <$>
    registry_get (upload defaultStreaming sample_cwd sample_request "a" 100 (initial ∅)).1 "a"
  = Some Processing.
Proof.
  apply (upload_summary_reports_processing defaultStreaming sample_cwd sample_request
           sample_file "a" 100 (initial ∅)); reflexivity.
Defined.

(** C8 (as stated) fails: after two uploads at times 100 and 200 the list
    route returns the older record first. *)
Lemma list_is_oldest_first :
  Video.createdAt <$> listed_videos (listVideos all_videos sample_pair) = [100; 200] ∧
  ¬ newest_first (listed_videos (listVideos all_videos sample_pair)).
Proof.
  assert (Video.createdAt <$> listed_videos (listVideos all_videos sample_pair)
          = [100; 200]) as Heq by (vm_compute; reflexivity).
  split; [exact Heq|].
  unfold newest_first. rewrite Heq. intros Hs.
  apply Sorted_inv in Hs as [_ Hhd]. apply HdRel_inv in Hhd. lia.
Qed.

Lemma listVideos_page_witness :
  let matching := filter (matches all_videos) (registry_values sample_pair) in
  listVideos all_videos sample_pair
  = Json 200 (BList (take (Z.to_nat 10) (drop (Z.to_nat ((1 - 1) * 10)) matching))
                    1 10 (Z.of_nat (length matching))
                    (ceil_div (Z.of_nat (length matching)) 10)) ∧
  listed_videos (listVideos all_videos sample_pair) `sublist_of` registry_values sample_pair.
Proof.
  apply (listVideos_page all_videos sample_pair); simpl; lia.
Defined.

(** * Further properties *)

(** ** Paths below a directory *)

Lemma normalize_go_snoc (allow : bool) (st xs : list string) (b : string) :
  b ≠ EmptyString → b ≠ "." → b ≠ ".." →
  Path.normalize_go allow st (xs ++ [b]) = Path.normalize_go allow st xs ++ [b].
Proof.
  intros H1 H2 H3. rewrite normalize_go_app, normalize_go_push, normalize_go_nil by done.
  by rewrite reverse_cons, reverse_involutive.
Qed.

Lemma last_char_cons (a : ascii) (s : string) :
  s ≠ EmptyString → Str.last_char (String a s) = Str.last_char s.
Proof. by destruct s. Qed.

Lemma last_char_nonempty (s : string) : s ≠ EmptyString → is_Some (Str.last_char s).
Proof.
  induction s as [|a s IH]; [done|]. intros _.
  destruct s as [|b s]; [by eexists|].
  rewrite last_char_cons by done. by apply IH.
Qed.

Lemma last_char_append (s t : string) :
  t ≠ EmptyString → Str.last_char (s +:+ t) = Str.last_char t.
Proof.
  intros Ht. induction s as [|a s IH]; [done|].
  rewrite append_cons, last_char_cons; [done|]. by destruct s.
Qed.

Lemma last_char_mem (s : string) (c : ascii) :
  Str.last_char s = Some c → Str.mem_char c s = true.
Proof.
  induction s as [|a s IH]; [done|].
  destruct s as [|b s].
  - simpl. intros [= ->]. by rewrite decide_True.
  - rewrite last_char_cons by done. intros Hc%IH.
    change (Str.mem_char c (String a (String b s)))
      with (if decide (a = c) then true else Str.mem_char c (String b s)).
    by destruct (decide (a = c)).
Qed.

Lemma last_char_join (C : list string) (b : string) :
  b ≠ EmptyString → Str.last_char (Str.join "/" (C ++ [b])) = Str.last_char b.
Proof.
  intros Hb. induction C as [|x C IH]; [done|].
  assert (Str.join "/" (C ++ [b]) ≠ EmptyString) as Hne.
  { intros Heq. destruct (last_char_nonempty b Hb) as [c Hc].
    rewrite <- IH, Heq in Hc. done. }
  assert (Str.join "/" ((x :: C) ++ [b]) = x +:+ "/" +:+ Str.join "/" (C ++ [b])) as ->.
  { cbn [app]. by destruct (C ++ [b]) eqn:E; [destruct C|]. }
  rewrite !last_char_append; [done..|]. by apply append_nonempty.
Qed.

Lemma file_name_last (b : string) : file_name b → Str.last_char b ≠ Some "/"%char.
Proof. intros (_ & _ & _ & Hs) Hc%last_char_mem. congruence. Qed.

(** Joining onto a file name gives a path that names a file. *)
Lemma join_file_name (a b : string) (rest : list string) :
  a ≠ EmptyString → file_name b →
  Path.join (a :: rest ++ [b]) ≠ EmptyString ∧
  Str.ends_with_char "/" (Path.join (a :: rest ++ [b])) = false.
Proof.
  intros Ha Hb. pose proof Hb as (Hb1 & Hb2 & Hb3 & Hb4).
  unfold Path.join. rewrite filter_cons, decide_True by done.
  rewrite filter_app, (filter_cons _ b), decide_True by done. rewrite filter_nil.
  set (mid := filter (λ a, a ≠ EmptyString) rest).
  set (X := Str.join "/" (a :: mid ++ [b])).
  assert (Str.last_char X = Str.last_char b) as HlastX.
  { unfold X. by rewrite (app_comm_cons mid [b] a), last_char_join. }
  assert (X ≠ EmptyString) as HX by (by apply join_nonempty).
  unfold Path.normalize. rewrite bool_decide_false by done.
  assert (Str.ends_with_char "/" X = false) as ->.
  { unfold Str.ends_with_char. rewrite HlastX. apply bool_decide_false.
    by apply file_name_last. }
  assert (∃ C, Path.normalize_go (negb (Path.is_absolute X)) [] (Path.segments X)
               = C ++ [b]) as [C ->].
  { unfold X. rewrite segments_join, (app_comm_cons mid [b] a), fmap_app, concat_app.
    assert (concat (Path.segments <$> [b]) = [b]) as ->.
    { cbn [fmap list_fmap concat]. rewrite app_nil_r. by apply split_on_plain. }
    rewrite normalize_go_snoc by done. by eexists. }
  assert (Str.last_char (Str.join "/" (C ++ [b])) ≠ Some "/"%char) as Hlast.
  { rewrite last_char_join by done. by apply file_name_last. }
  assert (Str.join "/" (C ++ [b]) ≠ EmptyString) as Hbody.
  { intros Heq. destruct (last_char_nonempty b Hb1) as [c Hc].
    rewrite <- (last_char_join C) in Hc by done. by rewrite Heq in Hc. }
  rewrite bool_decide_false by done.
  destruct (Path.is_absolute X).
  - split; [done|]. unfold Str.ends_with_char. apply bool_decide_false.
    by rewrite slash_append, last_char_cons.
  - split; [done|]. unfold Str.ends_with_char. by apply bool_decide_false.
Qed.

Section Nested.

Variable cwd : string.

(** Resolving does not see that a prefix of the path was normalised first. *)
Lemma resolve_under_normalize (X : string) (rest : list string) :
  X ≠ EmptyString →
  Path.normalize_go false []
    ((if Path.is_absolute (Path.normalize X) then [] else Path.segments cwd)
     ++ Path.segments (Path.normalize X) ++ rest)
  = Path.normalize_go false []
      ((if Path.is_absolute X then [] else Path.segments cwd) ++ Path.segments X ++ rest).
Proof.
  intros HX. destruct (normalize_segments X HX) as [Habs Hsegs].
  rewrite Habs. rewrite !app_assoc.
  rewrite !(normalize_go_app false [] _ rest). do 2 f_equal.
  destruct (Path.is_absolute X) eqn:HabsX.
  - rewrite !app_nil_l, Hsegs. cbn [negb].
    apply normalize_go_absolute_idem, split_on_pieces.
  - rewrite !(normalize_go_app false [] (Path.segments cwd)).
    rewrite Hsegs. cbn [negb].
    rewrite normalize_go_absorb by constructor.
    change (reverse (@nil string)) with (@nil string).
    by rewrite normalize_go_nil, reverse_involutive.
Qed.

Lemma normalize_nonempty (X : string) : Path.normalize X ≠ EmptyString.
Proof.
  unfold Path.normalize. case_bool_decide; [done|].
  case_bool_decide as Hb.
  - by destruct (Path.is_absolute X), (Str.ends_with_char "/" X).
  - by destruct (Path.is_absolute X), (Str.ends_with_char "/" X);
      try apply append_nonempty.
Qed.

(** Joining in two steps or in one resolves to the same place. *)
Lemma resolve_join_nested (a id b : string) :
  a ≠ EmptyString →
  Path.resolve cwd (Path.join [Path.join [a; id]; b])
  = Path.resolve cwd (Path.join [a; id; b]).
Proof.
  intros Ha.
  assert (Path.join [a; id] = Path.normalize (Str.join "/" (a :: filter (λ x, x ≠ EmptyString) [id])))
    as Hjoin.
  { unfold Path.join. by rewrite filter_cons, decide_True. }
  assert (Str.join "/" (a :: filter (λ x, x ≠ EmptyString) [id]) ≠ EmptyString) as HX
    by (by apply join_nonempty).
  rewrite (resolve_join cwd (Path.join [a; id]) [b])
    by (rewrite Hjoin; apply normalize_nonempty).
  rewrite (resolve_join cwd a [id; b]) by done.
  rewrite Hjoin, resolve_under_normalize by done.
  rewrite is_absolute_join, segments_join by done.
  change [id; b] with ([id] ++ [b]).
  rewrite fmap_cons, fmap_app, concat_app. cbn [concat]. rewrite <- !app_assoc.
  rewrite !normalize_go_app. by rewrite normalize_go_parts.
Qed.

(** A file name joined onto a directory lies in that directory. *)
Lemma resolve_join_file (a b : string) :
  a ≠ EmptyString → file_name b →
  Path.resolve cwd (Path.join [a; b]) = Path.resolve cwd a ++ [b].
Proof.
  intros Ha (Hb1 & Hb2 & Hb3 & Hb4).
  rewrite (resolve_join cwd a [b]) by done.
  assert (concat (Path.segments <$> [b]) = [b]) as ->.
  { cbn [fmap list_fmap concat]. rewrite app_nil_r. by apply split_on_plain. }
  rewrite app_assoc, normalize_go_snoc by done.
  unfold Path.resolve. by destruct (Path.is_absolute a).
Qed.

Lemma join_never_empty (args : list string) : Path.join args ≠ EmptyString.
Proof.
  unfold Path.join. destruct (filter _ args); [done|apply normalize_nonempty].
Qed.

Lemma dirname_snoc (l : list string) (x : string) : Fs.dirname (l ++ [x]) = l.
Proof.
  unfold Fs.dirname. rewrite length_app. simpl.
  replace (length l + 1 - 1)%nat with (length l) by lia.
  by rewrite take_app_length.
Qed.



End Nested.

Section Listener.

Variable config : StreamingConfig.
Variable cwd : string.

Lemma outputDir_nonempty (id : string) : outputDir config id ≠ EmptyString.
Proof. apply join_never_empty. Qed.

Lemma file_name_playlist : file_name "playlist.m3u8".
Proof. by repeat split. Qed.

(** The listener throws exactly when the output directory is not there. *)
Lemma end_listener_spec (id : string) (files : Fs.t) :
  end_listener config cwd id files
  = if Fs.is_directory files (Path.resolve cwd (outputDir config id))
    then Some (Fs.put files cwd (Path.join [outputDir config id; "playlist.m3u8"])
                 (masterPlaylist (configured_qualities config)))
    else None.
Proof.
  unfold end_listener, generateMasterPlaylist, encoder_ended, Fs.writeFileSync,
    Fs.write_error, Fs.put.
  rewrite (resolve_join_file cwd) by (apply outputDir_nonempty || apply file_name_playlist).
  rewrite dirname_snoc.
  set (P := Path.resolve cwd (outputDir config id)).
  assert (∀ m : Fs.t, Fs.is_directory m (P ++ ["playlist.m3u8"])
                      = match m !! (P ++ ["playlist.m3u8"]) with
                        | Some Dir => true
                        | _ => false
                        end) as Htarget.
  { intros m. unfold Fs.is_directory. by destruct P. }
  destruct (Fs.is_directory files P) eqn:HP.
  - rewrite Htarget, lookup_insert_eq.
    assert (Fs.is_directory (<[P ++ ["playlist.m3u8"] := File EmptyString]> files) P = true)
      as ->.
    { unfold Fs.is_directory in *. destruct P as [|x P']; [done|].
      rewrite lookup_insert_ne; [done|].
      intros Heq. apply (f_equal length) in Heq. rewrite length_app in Heq.
      simpl in Heq. lia. }
    by rewrite insert_insert_eq.
  - rewrite Htarget. destruct (files !! (P ++ ["playlist.m3u8"])) as [[c|]|]; try done.
    + rewrite HP. by destruct (files !! P).
    + rewrite HP. by destruct (files !! P).
Qed.

Lemma stalls_spec (o : Outcome) (j : Job) (s : State) :
  stalls config cwd o j s
  = match o, job_at j with
    | Resolved _, AwaitHLS =>
        negb (Fs.is_directory (fs s) (Path.resolve cwd (outputDir config (job_videoId j))))
    | _, _ => false
    end.
Proof.
  unfold stalls. destruct o as [probed|]; [|done].
  destruct (job_at j); try done.
  rewrite end_listener_spec. by destruct (Fs.is_directory _ _).
Qed.

(** Where the playlist of a video lies. *)
Lemma playlist_path (id : string) :
  Path.resolve cwd (Path.join [chunksDir config; id; "playlist.m3u8"])
  = Path.resolve cwd (outputDir config id) ++ ["playlist.m3u8"].
Proof.
  rewrite <- resolve_join_nested by apply chunksDir_nonempty.
  apply resolve_join_file; [apply outputDir_nonempty|apply file_name_playlist].
Qed.

Lemma hidden_snoc (l : list string) (x : string) :
  Fs.hidden (l ++ [x]) = Str.starts_with "." x.
Proof. unfold Fs.hidden. by rewrite last_snoc. Qed.

Lemma is_directory_lookup (files : Fs.t) (abs : list string) :
  files !! abs = Some Dir → Fs.is_directory files abs = true.
Proof. intros H. unfold Fs.is_directory. destruct abs; [done|]. by rewrite H. Qed.

End Listener.

(** ** The segment route *)

Section SegmentRoute.

Variable config : StreamingConfig.
Variable cwd : string.

Lemma hidden_no_dot (abs : list string) :
  Forall (λ x, Str.starts_with "." x = false) abs → Fs.hidden abs = false.
Proof.
  intros Hall. unfold Fs.hidden. destruct (last abs) as [x|] eqn:Hlast; [|done].
  apply last_Some in Hlast as [l' ->].
  rewrite Forall_app, Forall_singleton in Hall. by destruct Hall.
Qed.

(** C4 (amended): the segment route does not validate the segment name.
    What it serves is the regular file at the normalised join of the chunks
    directory, the id and the name, for a [Ready] video: nothing is served
    unless that file exists and its name does not begin with a dot, and it
    is served, as [video/MP2T], when it exists and no component of its path
    begins with a dot.  The handler itself answers 404 for an id that is
    unknown or not [Ready] and for a path at which nothing exists.  A name
    none of whose slash-separated components is [".."] stays inside the
    video's output directory; no other name is refused. *)
Theorem segment_without_dotdot_stays_inside (s : State) (id segment : string) :
  let path := Path.join [chunksDir config; id; segment] in
  let abs := Path.resolve cwd path in
  (∀ bytes,
     served_content s (getSegment config cwd id segment s) = Some bytes →
     not_ready (registry_get s id) = false ∧
     fs s !! abs = Some (File bytes) ∧
     Fs.hidden abs = false) ∧
  (∀ bytes,
     not_ready (registry_get s id) = false →
     fs s !! abs = Some (File bytes) →
     Str.ends_with_char "/" path = false →
     Forall (λ x, Str.starts_with "." x = false) abs →
     getSegment config cwd id segment s = SendFile "video/MP2T" abs ∧
     served_content s (getSegment config cwd id segment s) = Some bytes) ∧
  (not_ready (registry_get s id) = true →
   getSegment config cwd id segment s
   = Json 404 (BError "Video not ready for streaming")) ∧
  (not_ready (registry_get s id) = false →
   Fs.existsSync (fs s) cwd path = false →
   getSegment config cwd id segment s = Json 404 (BError "Segment not found")) ∧
  (".." ∉ Path.segments segment →
   Path.resolve cwd (outputDir config id) `prefix_of` abs).
Proof.
  intros path abs.
  assert (path ≠ EmptyString) as Hpath by apply join_never_empty.
  assert (".." ∉ Path.segments segment →
          Path.resolve cwd (outputDir config id) `prefix_of` abs) as Hinside.
  { intros Hup. unfold abs, path, outputDir.
    rewrite !resolve_join by apply chunksDir_nonempty.
    cbn [fmap list_fmap concat]. rewrite !app_nil_r, !app_assoc.
    rewrite (normalize_go_app false [] _ (Path.segments segment)).
    rewrite (normalize_go_descend false _ (Path.segments segment)) by done.
    rewrite reverse_involutive. by eexists. }
  unfold getSegment. fold path. fold abs.
  destruct (not_ready (registry_get s id)) eqn:Hready.
  { repeat split; try done. }
  destruct (Fs.existsSync (fs s) cwd path) eqn:Hex; cbn [negb].
  - split; [|split; [|split; [done|split; [done|exact Hinside]]]].
    + intros bytes. cbn [served_content]. unfold Fs.sendFile, Fs.read.
      destruct (Fs.hidden abs); [done|].
      destruct (fs s !! abs) as [[c|]|]; [|done..]. by intros [= ->].
    + intros bytes _ Hfile _ Hdots. split; [done|].
      cbn [served_content]. unfold Fs.sendFile, Fs.read.
      by rewrite hidden_no_dot, Hfile.
  - split; [done|]. split; [|split; [done|split; [done|exact Hinside]]].
    intros bytes _ Hfile Htrail _. exfalso.
    unfold Fs.existsSync in Hex. rewrite bool_decide_false in Hex by done.
    fold abs in Hex. rewrite Hfile, Htrail in Hex. done.
Qed.

End SegmentRoute.

(** ** One continuation, component by component *)

Section Continuation.

Variable config : StreamingConfig.
Variable cwd : string.

Lemma resume_stalled (i : nat) (j : Job) (o : Outcome) (now : Z) (s : State) :
  jobs s !! i = Some j →
  stalls config cwd o j s = true →
  resume config cwd i o now s = with_jobs (delete i (jobs s)) s.
Proof.
  intros Hj Hst. unfold resume, processVideo_resume. rewrite Hj.
  unfold stalls in Hst. destruct o as [probed|]; [|done].
  destruct (job_at j); try done.
  by destruct (end_listener config cwd (job_videoId j) (fs s)).
Qed.

Lemma resume_heap (i : nat) (j : Job) (o : Outcome) (now : Z) (s : State) :
  jobs s !! i = Some j →
  stalls config cwd o j s = false →
  heap (resume config cwd i o now s)
  = alter (resume_effect config now o j) (job_video j) (heap s).
Proof.
  intros Hj Hst. unfold resume, processVideo_resume, resume_effect. rewrite Hj.
  unfold stalls in Hst. destruct o as [probed|].
  - destruct (job_at j).
    + cbn. symmetry. by apply list_alter_id.
    + cbn. symmetry. by apply list_alter_id.
    + destruct (wants_hls config); cbn; [done|].
      unfold processVideo_finish, mutate, with_videos, with_heap. cbn [heap].
      rewrite !list_alter_alter_eq. reflexivity.
    + destruct (end_listener config cwd (job_videoId j) (fs s)) as [files|]; [|done].
      cbn. unfold processVideo_finish, mutate, with_videos, with_heap, with_fs.
      cbn [heap]. rewrite !list_alter_alter_eq. reflexivity.
  - cbn. unfold processVideo_catch, mutate, with_videos, with_heap. cbn [heap].
    rewrite !list_alter_alter_eq. reflexivity.
Qed.

Lemma resume_videos (i : nat) (j : Job) (o : Outcome) (now : Z) (s : State) :
  jobs s !! i = Some j →
  stalls config cwd o j s = false →
  videos (resume config cwd i o now s)
  = if resume_ends config o (job_at j)
    then JsMap.set (videos s) (job_videoId j) (job_video j)
    else videos s.
Proof.
  intros Hj Hst. unfold resume, processVideo_resume, resume_ends. rewrite Hj.
  unfold stalls in Hst. destruct o as [probed|]; [|done].
  destruct (job_at j); try done.
  - by destruct (wants_hls config).
  - by destruct (end_listener config cwd (job_videoId j) (fs s)).
Qed.

Lemma resume_jobs (i : nat) (j : Job) (o : Outcome) (now : Z) (s : State) :
  jobs s !! i = Some j →
  jobs (resume config cwd i o now s)
  = if resume_ends config o (job_at j)
    then delete i (jobs s)
    else <[i := at_point (next_point (job_at j)) j]> (jobs s).
Proof.
  intros Hj. unfold resume, processVideo_resume, resume_ends. rewrite Hj.
  destruct o as [probed|]; [|done].
  destruct (job_at j); try done.
  - by destruct (wants_hls config).
  - by destruct (end_listener config cwd (job_videoId j) (fs s)).
Qed.

Lemma resume_absent (i : nat) (o : Outcome) (now : Z) (s : State) :
  jobs s !! i = None → resume config cwd i o now s = s.
Proof. intros Hj. unfold resume. by rewrite Hj. Qed.

Lemma resume_effect_identity (now : Z) (o : Outcome) (j : Job) (v : Video.t) :
  same_identity v (resume_effect config now o j v).
Proof.
  unfold resume_effect, same_identity.
  destruct o; [destruct (job_at j); [| |destruct (wants_hls config)|]|]; by repeat split.
Qed.

End Continuation.

(** ** The registry map, further *)

Lemma JsMap_get_elem {V} (m : JsMap.t V) (k : string) (v : V) :
  JsMap.get m k = Some v → (k, v) ∈ m.
Proof.
  induction m as [|[k' v'] m IH]; simpl; [done|].
  case_decide as Hk; intros Hg.
  - simplify_eq. by left.
  - right. by apply IH.
Qed.

Lemma JsMap_get_None {V} (m : JsMap.t V) (k : string) :
  JsMap.get m k = None ↔ k ∉ JsMap.keys m.
Proof.
  unfold JsMap.keys. induction m as [|[k' v'] m IH]; simpl.
  - split; [intros _; apply not_elem_of_nil|done].
  - rewrite not_elem_of_cons. case_decide as Hk; [|tauto].
    split; [done|]. intros [? _]. done.
Qed.

Lemma JsMap_Forall_set {V} (P : string * V → Prop) (m : JsMap.t V) (k : string) (v : V) :
  Forall P m → P (k, v) → Forall P (JsMap.set m k v).
Proof.
  intros Hm Hkv. induction Hm as [|[k' v'] m Hx Hm IH]; simpl.
  - by repeat constructor.
  - case_decide; constructor; auto.
Qed.

Lemma JsMap_keys_set {V} (m : JsMap.t V) (k : string) (v : V) :
  JsMap.keys (JsMap.set m k v)
  = if decide (k ∈ JsMap.keys m) then JsMap.keys m else JsMap.keys m ++ [k].
Proof.
  unfold JsMap.keys. induction m as [|[k' v'] m IH]; cbn [JsMap.set fmap list_fmap fst].
  - rewrite decide_False; [done|apply not_elem_of_nil].
  - destruct (decide (k = k')) as [->|Hne]; cbn [fmap list_fmap fst].
    + rewrite decide_True; [done|by left].
    + rewrite IH. destruct (decide (k ∈ m.*1)) as [Hin|Hout].
      * rewrite decide_True; [done|by right].
      * rewrite decide_False; [done|]. by apply not_elem_of_cons.
Qed.

Lemma JsMap_NoDup_set {V} (m : JsMap.t V) (k : string) (v : V) :
  NoDup (JsMap.keys m) → NoDup (JsMap.keys (JsMap.set m k v)).
Proof.
  intros Hm. rewrite JsMap_keys_set. case_decide as Hk; [done|].
  apply NoDup_app. repeat split; [done| |apply NoDup_singleton].
  intros x Hx ->%list_elem_of_singleton. done.
Qed.

Lemma JsMap_get_delete_eq {V} (m : JsMap.t V) (k : string) :
  JsMap.get (JsMap.delete m k) k = None.
Proof.
  apply JsMap_get_None. unfold JsMap.keys, JsMap.delete.
  intros ([k' v] & Hk & Hin)%list_elem_of_fmap.
  apply list_elem_of_filter in Hin as [Hne _]. simpl in *. by subst.
Qed.

Lemma JsMap_delete_cons {V} (m : JsMap.t V) (k k0 : string) (v0 : V) :
  JsMap.delete ((k0, v0) :: m) k
  = if decide (k0 ≠ k) then (k0, v0) :: JsMap.delete m k else JsMap.delete m k.
Proof. reflexivity. Qed.

Lemma JsMap_get_delete_ne {V} (m : JsMap.t V) (k k' : string) :
  k ≠ k' → JsMap.get (JsMap.delete m k) k' = JsMap.get m k'.
Proof.
  intros Hne. induction m as [|[k0 v0] m IH]; [done|].
  rewrite JsMap_delete_cons. destruct (decide (k0 ≠ k)) as [Hk|Hk]; cbn [JsMap.get].
  - by rewrite IH.
  - apply dec_stable in Hk as ->. by rewrite decide_False.
Qed.

Lemma JsMap_keys_delete {V} (m : JsMap.t V) (k : string) :
  JsMap.keys (JsMap.delete m k) `sublist_of` JsMap.keys m.
Proof. unfold JsMap.keys, JsMap.delete. apply fmap_sublist, sublist_filter. Qed.

Lemma JsMap_Forall_delete {V} (P : string * V → Prop) (m : JsMap.t V) (k : string) :
  Forall P m → Forall P (JsMap.delete m k).
Proof.
  rewrite !Forall_forall. intros Hm kv Hin.
  apply list_elem_of_filter in Hin as [_ Hin]. by apply Hm.
Qed.

(** With unique keys a lookup finds the entry wherever it is. *)
Lemma JsMap_elem_get {V} (m : JsMap.t V) (k : string) (v : V) :
  NoDup (JsMap.keys m) → (k, v) ∈ m → JsMap.get m k = Some v.
Proof.
  unfold JsMap.keys. induction m as [|[k' v'] m IH]; simpl.
  - intros _ Hin. by apply elem_of_nil in Hin.
  - intros [Hk' Hm]%NoDup_cons [Heq|Hin]%elem_of_cons.
    + simplify_eq. by rewrite decide_True.
    + rewrite decide_False; [by apply IH|].
      intros ->. apply Hk'. by apply (list_elem_of_fmap_2 fst) in Hin.
Qed.

(** ** Well-formed states *)

Section WellFormed.

Variable config : StreamingConfig.
Variable cwd : string.

Lemma well_formed_initial (files : Fs.t) : well_formed (initial files).
Proof. split; simpl; constructor. Qed.

Lemma well_formed_same_parts (s s' : State) :
  heap s' = heap s → videos s' = videos s → jobs s' = jobs s →
  well_formed s → well_formed s'.
Proof. intros Hh Hv Hj [H1 H2 H3 H4]. split; by rewrite ?Hh, ?Hv, ?Hj. Qed.

Lemma well_formed_uploaded (req : UploadRequest) (f : UploadedFile) (uuid : string)
    (now : Z) (s : State) :
  well_formed s → well_formed (uploaded config cwd req f uuid now s).
Proof.
  intros [H1 H2 H3 H4]. split; unfold uploaded; cbn [heap videos jobs].
  - apply JsMap_Forall_set; [apply JsMap_Forall_set|].
    + eapply Forall_impl; [exact H1|]. intros [k l] (v & Hv & Hid).
      exists v. split; [by apply lookup_app_l_Some|done].
    + eexists. simpl.
      rewrite lookup_app_r, Nat.sub_diag by done. by split.
    + eexists. simpl.
      rewrite lookup_app_r, Nat.sub_diag by done. by split.
  - by do 2 apply JsMap_NoDup_set.
  - apply Forall_app. split.
    + eapply Forall_impl; [exact H3|]. intros j (v & Hv & Hid).
      exists v. split; [by apply lookup_app_l_Some|done].
    + constructor; [|constructor]. eexists. simpl.
      rewrite lookup_app_r, Nat.sub_diag by done. by split.
  - apply Forall_app. split; [done|]. constructor; [|constructor].
    unfold record_shape. simpl. done.
Qed.

Lemma well_formed_resume (i : nat) (o : Outcome) (now : Z) (s : State) :
  consistent s → well_formed s → well_formed (resume config cwd i o now s).
Proof.
  intros [_ C2 _] [H1 H2 H3 H4].
  destruct (jobs s !! i) as [j|] eqn:Hj; [|by rewrite resume_absent].
  destruct (stalls config cwd o j s) eqn:Hstall.
  { rewrite (resume_stalled config cwd i j) by done.
    split; cbn [with_jobs heap videos jobs]; try done. by apply Forall_delete. }
  assert (∀ l v, heap s !! l = Some v →
            ∃ v', alter (resume_effect config now o j) (job_video j) (heap s) !! l
                  = Some v' ∧ Video.id v' = Video.id v) as Hkeep.
  { intros l v Hv. destruct (decide (job_video j = l)) as [<-|Hne].
    - eexists. rewrite list_lookup_alter_eq, Hv. split; [done|].
      apply resume_effect_identity.
    - exists v. by rewrite list_lookup_alter_ne. }
  assert (∃ v, heap s !! job_video j = Some v ∧ Video.id v = job_videoId j)
    as (vj & Hvj & Hidj).
  { rewrite Forall_lookup in H3. by eapply H3. }
  assert (Video.status vj = Processing ∧ Video.streamingUrls vj = None ∧
          Video.thumbnailUrl vj = None) as (Hst & Hu & Ht).
  { rewrite Forall_lookup in C2. destruct (C2 i j Hj) as (v & Hv & ?).
    by simplify_eq. }
  assert (Forall (λ kv, ∃ v, alter (resume_effect config now o j) (job_video j) (heap s)
                              !! kv.2 = Some v ∧ Video.id v = kv.1) (videos s)) as H1'.
  { eapply Forall_impl; [exact H1|]. intros [k l] (v & Hv & Hid).
    destruct (Hkeep l v Hv) as (v' & Hv' & Hid'). exists v'. simpl in *.
    split; [done|congruence]. }
  split.
  - rewrite (resume_heap config cwd i j), (resume_videos config cwd i j) by done.
    destruct (resume_ends config o (job_at j)); [|done].
    apply JsMap_Forall_set; [done|].
    destruct (Hkeep _ _ Hvj) as (v' & Hv' & Hid'). exists v'. simpl.
    split; [done|congruence].
  - rewrite (resume_videos config cwd i j) by done.
    destruct (resume_ends config o (job_at j)); [|done]. by apply JsMap_NoDup_set.
  - rewrite (resume_heap config cwd i j), (resume_jobs config cwd i j) by done.
    assert (Forall (λ j', ∃ v, alter (resume_effect config now o j) (job_video j) (heap s)
                               !! job_video j' = Some v ∧ Video.id v = job_videoId j')
                   (jobs s)) as H3'.
    { eapply Forall_impl; [exact H3|]. intros j' (v & Hv & Hid).
      destruct (Hkeep _ _ Hv) as (v' & Hv' & Hid'). exists v'.
      split; [done|congruence]. }
    destruct (resume_ends config o (job_at j)).
    + by apply Forall_delete.
    + apply Forall_insert; [done|]. rewrite Forall_lookup in H3'. exact (H3' i j Hj).
  - rewrite (resume_heap config cwd i j) by done.
    apply Forall_alter; [done|]. intros v Hv Hshape. simplify_eq.
    unfold resume_effect, record_shape in *. rewrite Hst in Hshape.
    destruct o as [probed|]; [|by simpl].
    destruct (job_at j); [by rewrite Hst|by rewrite Hst| |].
    + destruct (wants_hls config); simpl; [by rewrite Hst|]. by rewrite Hidj.
    + simpl. by rewrite Hidj.
Qed.

Lemma well_formed_delete (id : string) (s : State) :
  well_formed s → well_formed (with_videos (JsMap.delete (videos s) id) s).
Proof.
  intros [H1 H2 H3 H4]. split; cbn [with_videos heap videos jobs]; try done.
  - by apply JsMap_Forall_delete.
  - eapply sublist_NoDup; [exact H2|apply JsMap_keys_delete].
Qed.

Lemma step_well_formed (e : Event) (s : State) :
  consistent s → well_formed s → well_formed (step config cwd e s).
Proof.
  intros Hc Hs. destruct e as [req uuid now|i o now|id completed|files]; cbn [step].
  - destruct (postUpload_cases config cwd req uuid now s) as [->| ->]; [done|].
    destruct (file req) as [f|] eqn:Hf.
    + destruct (multer_refuses f) eqn:Hm.
      * unfold upload. by rewrite Hf, Hm.
      * rewrite (upload_accepted config cwd req f) by done.
        by apply well_formed_uploaded.
    + unfold upload, uploadHandler. by rewrite Hf.
  - by apply well_formed_resume.
  - unfold deleteVideo. destruct (registry_get s id); [|done]. cbn [fst].
    apply (well_formed_same_parts (with_videos (JsMap.delete (videos s) id) s));
      [done..|]. by apply well_formed_delete.
  - by apply (well_formed_same_parts s).
Qed.

Lemma reachable_well_formed (s : State) : reachable config cwd s → well_formed s.
Proof.
  induction 1 as [files|e s Hs IH]; [apply well_formed_initial|].
  apply step_well_formed; [by eapply reachable_consistent|done].
Qed.

End WellFormed.

(** ** Records of different videos *)

Section Records.

Variable config : StreamingConfig.
Variable cwd : string.

Lemma registry_get_entry (s : State) (id : string) (v : Video.t) :
  well_formed s →
  registry_get s id = Some v →
  ∃ l, JsMap.get (videos s) id = Some l ∧ heap s !! l = Some v ∧ Video.id v = id.
Proof.
  intros [H1 _ _ _]. unfold registry_get.
  destruct (JsMap.get (videos s) id) as [l|] eqn:Hl; [|done]. simpl. intros Hv.
  exists l. repeat split; [done|].
  apply JsMap_get_elem in Hl. rewrite Forall_forall in H1.
  destruct (H1 _ Hl) as (v' & Hv' & Hid). simpl in *. congruence.
Qed.

Lemma registry_get_valid (s : State) (id : string) (l : nat) :
  well_formed s → JsMap.get (videos s) id = Some l →
  ∃ v, heap s !! l = Some v ∧ Video.id v = id.
Proof.
  intros [H1 _ _ _] Hl. apply JsMap_get_elem in Hl. rewrite Forall_forall in H1.
  exact (H1 _ Hl).
Qed.

(** X1: no event changes the record registered under an id other than the
    one it operates on: an upload with another uuid, a continuation of
    another video's call, the deletion of another id and file changes all
    leave it as it was. *)
Theorem step_leaves_other_records (e : Event) (s : State) (id : string) :
  reachable config cwd s →
  event_target e s ≠ Some id →
  registry_get (step config cwd e s) id = registry_get s id.
Proof.
  intros Hs Hid. pose proof (reachable_consistent config cwd s Hs) as Hc.
  apply reachable_well_formed in Hs as Hw.
  destruct e as [req uuid now|i o now|id0 completed|files]; cbn [step event_target] in *.
  - assert (uuid ≠ id) as Hne by congruence.
    destruct (postUpload_cases config cwd req uuid now s) as [->| ->]; [done|].
    destruct (file req) as [f|] eqn:Hf.
    + destruct (multer_refuses f) eqn:Hm; [unfold upload; by rewrite Hf, Hm|].
      rewrite (upload_accepted config cwd req f) by done. cbn [fst].
      unfold registry_get, uploaded. cbn [videos heap].
      rewrite !JsMap_get_set_ne by done.
      destruct (JsMap.get (videos s) id) as [l|] eqn:Hl; [|done]. simpl.
      destruct (registry_get_valid s id l Hw Hl) as (v & Hv & _).
      rewrite Hv. by apply lookup_app_l_Some.
    + unfold upload, uploadHandler. by rewrite Hf.
  - destruct (jobs s !! i) as [j|] eqn:Hj; [|by rewrite resume_absent].
    simpl in Hid. assert (job_videoId j ≠ id) as Hne by congruence.
    destruct (stalls config cwd o j s) eqn:Hstall;
      [by rewrite (resume_stalled config cwd i j)|].
    unfold registry_get.
    rewrite (resume_videos config cwd i j), (resume_heap config cwd i j) by done.
    assert (JsMap.get
              (if resume_ends config o (job_at j)
               then JsMap.set (videos s) (job_videoId j) (job_video j) else videos s) id
            = JsMap.get (videos s) id) as ->.
    { destruct (resume_ends config o (job_at j)); [|done]. by apply JsMap_get_set_ne. }
    destruct (JsMap.get (videos s) id) as [l|] eqn:Hl; [|done]. simpl.
    destruct (registry_get_valid s id l Hw Hl) as (v & Hv & Hvid).
    apply list_lookup_alter_ne. intros <-.
    destruct Hw as [_ _ H3 _]. rewrite Forall_lookup in H3.
    destruct (H3 i j Hj) as (v' & Hv' & Hid'). congruence.
  - assert (id0 ≠ id) as Hne by congruence.
    unfold deleteVideo. destruct (registry_get s id0); [|done]. cbn [fst].
    unfold registry_get. cbn [with_videos with_fs videos heap].
    by rewrite JsMap_get_delete_ne.
  - done.
Qed.

Lemma registry_values_ids (s : State) :
  well_formed s → Video.id <$> registry_values s = JsMap.keys (videos s).
Proof.
  intros [H1 _ _ _]. unfold registry_values, JsMap.values, JsMap.keys.
  induction H1 as [|[k l] m (v & Hv & Hid) _ IH]; [done|].
  cbn. simpl in Hv, Hid. rewrite Hv. cbn. by rewrite IH, Hid.
Qed.

(** X2: the registry holds exactly one record per id: the record found
    under an id carries that id, the ids of the listed records are pairwise
    distinct, and every entry of the map is listed. *)
Theorem registry_ids_unique (s : State) :
  reachable config cwd s →
  (∀ id v, registry_get s id = Some v → Video.id v = id) ∧
  NoDup (Video.id <$> registry_values s) ∧
  length (registry_values s) = length (videos s).
Proof.
  intros Hw%reachable_well_formed. split; [|split].
  - intros id v Hv. by destruct (registry_get_entry s id v Hw Hv) as (l & _ & _ & ?).
  - rewrite registry_values_ids by done. by destruct Hw.
  - rewrite <- (length_fmap Video.id), registry_values_ids by done.
    unfold JsMap.keys. by rewrite length_fmap.
Qed.

(** X3: between operations no registered record is [Uploading]; a [Ready]
    record refers to the playlist and thumbnail routes of its own id, and a
    record that is not [Ready] has neither reference. *)
Theorem registered_record_shape (s : State) (id : string) (v : Video.t) :
  reachable config cwd s →
  registry_get s id = Some v →
  Video.status v ≠ Uploading ∧
  (Video.status v = Ready →
     Video.streamingUrls v
     = Some {| hls := Some ("/streaming/stream/" +:+ id +:+ "/playlist.m3u8");
               dash := None |} ∧
     Video.thumbnailUrl v = Some ("/streaming/thumbnails/" +:+ id)) ∧
  (Video.status v ≠ Ready →
     Video.streamingUrls v = None ∧ Video.thumbnailUrl v = None).
Proof.
  intros Hw%reachable_well_formed Hv.
  destruct (registry_get_entry s id v Hw Hv) as (l & _ & Hl & <-).
  destruct Hw as [_ _ _ H4]. rewrite Forall_lookup in H4.
  specialize (H4 l v Hl). unfold record_shape in H4.
  destruct (Video.status v); [done|..]; (split; [done|]); split;
    solve [done | by intros _ | intros; tauto].
Qed.

(** One event, seen from one record object. *)
Lemma step_object (e : Event) (s : State) (l : nat) (v : Video.t) :
  consistent s →
  heap s !! l = Some v →
  ∃ v', heap (step config cwd e s) !! l = Some v' ∧
        same_identity v v' ∧ (terminal v → v' = v).
Proof.
  intros Hc Hv.
  assert (same_identity v v) as Hrefl by (by repeat split).
  destruct e as [req uuid now|i o now|id0 completed|files]; cbn [step].
  - destruct (postUpload_cases config cwd req uuid now s) as [->| ->]; [by exists v|].
    destruct (file req) as [f|] eqn:Hf.
    + destruct (multer_refuses f) eqn:Hm.
      * unfold upload. rewrite Hf, Hm. by exists v.
      * rewrite (upload_accepted config cwd req f) by done. cbn [fst uploaded heap].
        exists v. split; [by apply lookup_app_l_Some|done].
    + unfold upload, uploadHandler. rewrite Hf. by exists v.
  - destruct (jobs s !! i) as [j|] eqn:Hj; [|rewrite resume_absent by done; by exists v].
    destruct (stalls config cwd o j s) eqn:Hstall;
      [rewrite (resume_stalled config cwd i j) by done; by exists v|].
    rewrite (resume_heap config cwd i j) by done.
    destruct (decide (job_video j = l)) as [<-|Hne].
    + eexists. rewrite list_lookup_alter_eq, Hv. split; [done|].
      split; [apply resume_effect_identity|].
      destruct Hc as [_ C2 _]. rewrite Forall_lookup in C2.
      destruct (C2 i j Hj) as (v0 & Hv0 & Hst & _). simplify_eq.
      intros [Ht|Ht]; congruence.
    + exists v. by rewrite list_lookup_alter_ne.
  - unfold deleteVideo. destruct (registry_get s id0); by exists v.
  - by exists v.
Qed.

(** X4: a record object keeps its id, title, description, owner, file name,
    original URL, size and creation time through every run, and once its
    status is [Ready] or [Error] no later event changes it at all. *)
Theorem record_lifecycle (es : list Event) (s : State) (l : nat) (v : Video.t) :
  reachable config cwd s →
  heap s !! l = Some v →
  ∃ v', heap (run config cwd es s) !! l = Some v' ∧
        same_identity v v' ∧ (terminal v → v' = v).
Proof.
  revert s v. induction es as [|e es IH]; intros s v Hs Hv.
  - exists v. by repeat split.
  - destruct (step_object e s l v (reachable_consistent config cwd s Hs) Hv)
      as (v1 & Hv1 & Hid1 & Hterm1).
    destruct (IH (step config cwd e s) v1 (reachable_step config cwd e s Hs) Hv1)
      as (v2 & Hv2 & Hid2 & Hterm2).
    exists v2. split; [done|]. split.
    + destruct Hid1 as (? & ? & ? & ? & ? & ? & ? & ?).
      destruct Hid2 as (? & ? & ? & ? & ? & ? & ? & ?).
      repeat split; congruence.
    + intros Ht. specialize (Hterm1 Ht). subst v1. by apply Hterm2.
Qed.

End Records.

(** ** Upload, lookup and deletion *)

Section Lifecycle.

Variable config : StreamingConfig.
Variable cwd : string.

(** X5: an accepted upload can be read back at once under its uuid: the
    record has that id, status [Processing], no references, the stored file
    name and size, the title of the form or else the original file name, and
    the authenticated user or else ["anonymous"]. *)
Theorem upload_then_getVideo (req : UploadRequest) (f : UploadedFile) (uuid : string)
    (now : Z) (s : State) :
  file req = Some f →
  multer_refuses f = None →
  ∃ v, getVideo uuid (upload config cwd req uuid now s).1 = Json 200 (BVideo v) ∧
       Video.id v = uuid ∧ Video.status v = Processing ∧
       Video.streamingUrls v = None ∧ Video.thumbnailUrl v = None ∧
       Video.filename v = f_filename f ∧ Video.size v = f_size f ∧
       Video.createdAt v = now ∧
       Video.title v = match body_title req with
                       | Some t => if decide (t = EmptyString) then originalname f else t
                       | None => originalname f
                       end ∧
       Video.userId v = match user_id req with
                        | Some u => if decide (u = EmptyString) then "anonymous" else u
                        | None => "anonymous"
                        end.
Proof.
  intros Hf Hm. rewrite (upload_accepted config cwd req f) by done. cbn [fst].
  unfold getVideo. rewrite registry_get_uploaded.
  eexists. split; [done|]. simpl. repeat split.
  - unfold string_or, Js.truthy_string. destruct (body_title req) as [t|]; [|done].
    by destruct (decide (t = EmptyString)); [rewrite bool_decide_true|rewrite bool_decide_false].
  - unfold string_or, Js.truthy_string. destruct (user_id req) as [u|]; [|done].
    by destruct (decide (u = EmptyString)); [rewrite bool_decide_true|rewrite bool_decide_false].
Qed.

Lemma multer_refuses_None (f : UploadedFile) :
  multer_refuses f = None ↔ mimetype f ∈ allowedTypes ∧ f_size f < fileSizeLimit.
Proof.
  unfold multer_refuses. repeat case_bool_decide; split; try done; tauto.
Qed.

(** Once the file is stored, the filter and the limit decide. *)
Lemma upload_code (req : UploadRequest) (uuid : string) (now : Z) (s : State) :
  (response_code (upload config cwd req uuid now s).2 = Some 201 ↔
     ∃ f, file req = Some f ∧ mimetype f ∈ allowedTypes ∧ f_size f < fileSizeLimit) ∧
  ((upload config cwd req uuid now s).1 = s ∨
   ∃ f, file req = Some f ∧ mimetype f ∈ allowedTypes ∧ f_size f < fileSizeLimit).
Proof.
  destruct (file req) as [f|] eqn:Hf.
  - destruct (multer_refuses f) as [msg|] eqn:Hm.
    + assert (¬ (mimetype f ∈ allowedTypes ∧ f_size f < fileSizeLimit)) as Hno.
      { rewrite <- multer_refuses_None. congruence. }
      unfold upload. rewrite Hf, Hm. cbn. split; [|by left].
      split; [done|]. intros (f' & ? & ? & ?). simplify_eq. tauto.
    + rewrite (upload_accepted config cwd req f) by done. cbn.
      apply multer_refuses_None in Hm. split.
      * split; [|done]. intros _. by exists f.
      * right. by exists f.
  - unfold upload, uploadHandler. rewrite Hf. cbn. split; [|by left].
    split; [done|]. by intros (f & ? & _).
Qed.

(** X6: the upload route answers 201 exactly for a request that carries a
    file of an allowed type, smaller than the size limit, that the disk
    storage can write (the videos directory is there); any other request
    leaves the whole state (registry, records, calls, files) as it was. *)
Theorem upload_accepts_exactly (req : UploadRequest) (uuid : string) (now : Z)
    (s : State) :
  (response_code (postUpload config cwd req uuid now s).2 = Some 201 ↔
     accepted config cwd req s) ∧
  (¬ accepted config cwd req s → (postUpload config cwd req uuid now s).1 = s).
Proof.
  destruct (upload_code req uuid now s) as [Hcode Hstate].
  unfold accepted, postUpload. destruct (file req) as [f|] eqn:Hf.
  - case_bool_decide as Htype.
    + destruct (Fs.write_error (fs s) (stored_at config cwd f)) as [code|] eqn:Hw.
      * cbn [fst snd response_code]. split; [|done]. split; [done|].
        intros (f' & ? & _ & _ & Hw'). simplify_eq.
      * split.
        -- rewrite Hcode. split.
           ++ intros (f' & [= <-] & ? & ?). by exists f.
           ++ intros (f' & ? & ? & ? & _). by exists f'.
        -- intros Hno. destruct Hstate as [?|(f' & [= <-] & ? & ?)]; [done|].
           exfalso. apply Hno. by exists f.
    + split.
      * rewrite Hcode. split.
        -- by intros (f' & [= <-] & ? & _).
        -- by intros (f' & [= <-] & ? & _).
      * intros _. by destruct Hstate as [?|(f' & [= <-] & ? & _)].
  - split.
    + rewrite Hcode. split; [by intros (f & ? & _)|by intros (f & ? & _)].
    + intros _. by destruct Hstate as [?|(f & ? & _)].
Qed.

Lemma deleteVideo_unregisters (id : string) (completed : nat) (s : State) :
  registry_get (deleteVideo config cwd id completed s).1 id = None.
Proof.
  unfold deleteVideo. destruct (registry_get s id) eqn:Hg; [|done]. cbn [fst].
  unfold registry_get. cbn [with_videos with_fs videos heap].
  by rewrite JsMap_get_delete_eq.
Qed.

Lemma deleteVideo_heap_jobs (id : string) (completed : nat) (s : State) :
  heap (deleteVideo config cwd id completed s).1 = heap s ∧
  jobs (deleteVideo config cwd id completed s).1 = jobs s.
Proof. unfold deleteVideo. by destruct (registry_get s id). Qed.

(** X7: after [deleteVideo id], whatever happened to the files, the id is
    unknown: reading it gives 404 and a second deletion gives 404 and changes
    nothing.  Deletion touches neither the record objects nor the calls in
    flight. *)
Theorem delete_then_unknown (id : string) (completed completed' : nat) (s : State) :
  getVideo id (deleteVideo config cwd id completed s).1
  = Json 404 (BError "Video not found") ∧
  deleteVideo config cwd id completed' (deleteVideo config cwd id completed s).1
  = ((deleteVideo config cwd id completed s).1, Json 404 (BError "Video not found")) ∧
  heap (deleteVideo config cwd id completed s).1 = heap s ∧
  jobs (deleteVideo config cwd id completed s).1 = jobs s.
Proof.
  pose proof (deleteVideo_unregisters id completed s) as Hgone.
  repeat split.
  - unfold getVideo. by rewrite Hgone.
  - unfold deleteVideo at 1. by rewrite Hgone.
  - apply deleteVideo_heap_jobs.
  - apply deleteVideo_heap_jobs.
Qed.

Lemma resume_registry_end (i : nat) (j : Job) (o : Outcome) (now : Z) (s : State)
    (v : Video.t) :
  jobs s !! i = Some j →
  heap s !! job_video j = Some v →
  resume_ends config o (job_at j) = true →
  stalls config cwd o j s = false →
  registry_get (resume config cwd i o now s) (job_videoId j)
  = Some (resume_effect config now o j v).
Proof.
  intros Hj Hv Hend Hstall. unfold registry_get.
  rewrite (resume_videos config cwd i j), (resume_heap config cwd i j), Hend by done.
  rewrite JsMap_get_set_eq. simpl. by rewrite list_lookup_alter_eq, Hv.
Qed.

Lemma resume_effect_end_status (now : Z) (o : Outcome) (j : Job) (v : Video.t) :
  resume_ends config o (job_at j) = true →
  Video.status (resume_effect config now o j v)
  = match o with Rejected => Error | Resolved _ => Ready end.
Proof.
  unfold resume_ends, resume_effect. destruct o as [probed|]; [|done].
  destruct (job_at j); try done. by destruct (wants_hls config).
Qed.

End Lifecycle.

(** ** Calls that run to their end *)

Section Runs.

Variable config : StreamingConfig.
Variable cwd : string.

Lemma resume_fs (i : nat) (j : Job) (o : Outcome) (now : Z) (s : State) :
  jobs s !! i = Some j →
  fs (resume config cwd i o now s)
  = match o, job_at j with
    | Resolved _, AwaitEnsureDir =>
        Fs.ensureDir (fs s) cwd (outputDir config (job_videoId j))
    | Resolved _, AwaitHLS =>
        default (fs s) (end_listener config cwd (job_videoId j) (fs s))
    | _, _ => fs s
    end.
Proof.
  intros Hj. unfold resume, processVideo_resume. rewrite Hj.
  destruct o as [probed|]; [|done].
  destruct (job_at j); try done.
  - by destruct (wants_hls config).
  - by destruct (end_listener config cwd (job_videoId j) (fs s)).
Qed.






(** X10: when ["hls"] is not among the configured formats, the probe is the
    last step: the record becomes [Ready] with an HLS playlist URL although
    processing has written no file at all, so unless a playlist file was
    already there the playlist route answers 404 for the [Ready] video. *)
Theorem ready_without_hls (s : State) (i : nat) (j : Job) (probed : option Z) (now : Z) :
  reachable config cwd s →
  wants_hls config = false →
  jobs s !! i = Some j →
  job_at j = AwaitMetadata →
  fs (resume config cwd i (Resolved probed) now s) = fs s ∧
  (∃ v, registry_get (resume config cwd i (Resolved probed) now s) (job_videoId j)
        = Some v ∧
        Video.status v = Ready ∧
        Video.streamingUrls v
        = Some {| hls := Some ("/streaming/stream/" +:+ job_videoId j +:+ "/playlist.m3u8");
                  dash := None |}) ∧
  (Fs.existsSync (fs s) cwd (Path.join [chunksDir config; job_videoId j; "playlist.m3u8"])
   = false →
   getPlaylist config cwd (job_videoId j) (resume config cwd i (Resolved probed) now s)
   = Json 404 (BError "Playlist not found")).
Proof.
  intros Hs%reachable_consistent Hhls Hj Hat.
  assert (∃ v, heap s !! job_video j = Some v) as [v Hv].
  { destruct Hs as [_ C2 _]. rewrite Forall_lookup in C2.
    destruct (C2 i j Hj) as (v & Hv & _). by exists v. }
  assert (resume_ends config (Resolved probed) (job_at j) = true) as Hend.
  { unfold resume_ends. by rewrite Hat, Hhls. }
  assert (stalls config cwd (Resolved probed) j s = false) as Hstall.
  { unfold stalls. by rewrite Hat. }
  pose proof (resume_registry_end config cwd i j (Resolved probed) now s v Hj Hv Hend
                Hstall) as Hreg.
  assert (fs (resume config cwd i (Resolved probed) now s) = fs s) as Hfs.
  { rewrite (resume_fs i j) by done. by rewrite Hat. }
  unfold resume_effect in Hreg. rewrite Hat, Hhls in Hreg.
  split; [done|]. split.
  - eexists. split; [exact Hreg|]. done.
  - intros Hno. unfold getPlaylist. rewrite Hreg, Hfs. cbn [not_ready].
    cbn. by rewrite Hno.
Qed.

End Runs.

(** ** The files of a deleted video *)

Section DeleteFiles.

Variable config : StreamingConfig.
Variable cwd : string.

Lemma remove_lookup_Some (files : Fs.t) (p : string) (k : list string) (n : Node) :
  Fs.remove files cwd p !! k = Some n → files !! k = Some n.
Proof. unfold Fs.remove. apply map_lookup_filter_Some_1_1. Qed.

Lemma remove_lookup_outside (files : Fs.t) (p : string) (k : list string) :
  ¬ Path.resolve cwd p `prefix_of` k → Fs.remove files cwd p !! k = files !! k.
Proof.
  intros Hout. unfold Fs.remove. destruct (files !! k) as [n|] eqn:Hk.
  - by apply map_lookup_filter_Some_2.
  - apply map_lookup_filter_None_2. by left.
Qed.

Lemma remove_lookup_inside (files : Fs.t) (p : string) (k : list string) :
  Path.resolve cwd p `prefix_of` k → Fs.remove files cwd p !! k = None.
Proof.
  intros Hin. unfold Fs.remove. apply map_lookup_filter_None_2. right.
  intros n _ Hno. by apply Hno.
Qed.

Lemma existsSync_shrink (files files' : Fs.t) (p : string) :
  (∀ k n, files' !! k = Some n → files !! k = Some n) →
  Fs.existsSync files cwd p = false → Fs.existsSync files' cwd p = false.
Proof.
  intros Hsub. unfold Fs.existsSync. case_bool_decide; [done|].
  destruct (files' !! Path.resolve cwd p) as [n|] eqn:Hk; [|done].
  by rewrite (Hsub _ _ Hk).
Qed.

Lemma existsSync_removed (files : Fs.t) (p : string) :
  Fs.existsSync (Fs.remove files cwd p) cwd p = false.
Proof.
  unfold Fs.existsSync. case_bool_decide; [done|].
  by rewrite remove_lookup_inside.
Qed.

Lemma remove_existing_Some (ps : list string) (files : Fs.t) (k : list string) (n : Node) :
  remove_existing cwd files ps !! k = Some n → files !! k = Some n.
Proof.
  revert files. induction ps as [|p ps IH]; intros files; [done|].
  cbn [remove_existing fold_left]. intros Hk%IH.
  destruct (Fs.existsSync files cwd p); [by eapply remove_lookup_Some|done].
Qed.

Lemma remove_existing_outside (ps : list string) (files : Fs.t) (k : list string) :
  (∀ p, p ∈ ps → ¬ Path.resolve cwd p `prefix_of` k) →
  remove_existing cwd files ps !! k = files !! k.
Proof.
  revert files. induction ps as [|p ps IH]; intros files Hout; [done|].
  cbn [remove_existing fold_left].
  fold (remove_existing cwd (if Fs.existsSync files cwd p then Fs.remove files cwd p else files) ps).
  rewrite IH by (intros q Hq; apply Hout; by right).
  destruct (Fs.existsSync files cwd p); [|done].
  apply remove_lookup_outside, Hout. by left.
Qed.

Lemma remove_existing_gone (ps : list string) (files : Fs.t) (p : string) :
  p ∈ ps → Fs.existsSync (remove_existing cwd files ps) cwd p = false.
Proof.
  revert files. induction ps as [|q ps IH]; intros files Hp.
  - by apply elem_of_nil in Hp.
  - cbn [remove_existing fold_left].
    fold (remove_existing cwd (if Fs.existsSync files cwd q then Fs.remove files cwd q else files) ps).
    apply elem_of_cons in Hp as [->|Hp]; [|by apply IH].
    eapply existsSync_shrink; [intros k n; apply remove_existing_Some|].
    destruct (Fs.existsSync files cwd q) eqn:Hq; [apply existsSync_removed|done].
Qed.

Lemma deleteVideoFiles_loop (video : Video.t) (completed : nat) (files : Fs.t) :
  deleteVideoFiles config cwd video completed files
  = remove_existing cwd files (take completed (video_paths config video)).
Proof. reflexivity. Qed.

(** X11: deleting a video creates no file, and it removes nothing outside
    the three places that belong to the video: the stored original, the
    thumbnail and the output directory. *)
Theorem delete_touches_only_own_files (id : string) (completed : nat) (s : State)
    (video : Video.t) (k : list string) :
  registry_get s id = Some video →
  (∀ p, p ∈ video_paths config video → ¬ Path.resolve cwd p `prefix_of` k) →
  fs (deleteVideo config cwd id completed s).1 !! k = fs s !! k ∧
  ∀ k' n, fs (deleteVideo config cwd id completed s).1 !! k' = Some n →
          fs s !! k' = Some n.
Proof.
  intros Hv Hout. unfold deleteVideo. rewrite Hv. cbn [fst with_videos with_fs fs].
  rewrite deleteVideoFiles_loop. split.
  - apply remove_existing_outside. intros p Hp. apply Hout.
    eapply elem_of_sublist; [exact Hp|apply sublist_take].
  - intros k' n. apply remove_existing_Some.
Qed.

(** X12: when none of the three removals fails, the stored original, the
    thumbnail and the output directory of the deleted video are gone. *)
Theorem delete_removes_own_files (id : string) (completed : nat) (s : State)
    (video : Video.t) (p : string) :
  registry_get s id = Some video →
  (3 ≤ completed)%nat →
  p ∈ video_paths config video →
  Fs.existsSync (fs (deleteVideo config cwd id completed s).1) cwd p = false.
Proof.
  intros Hv Hc Hp. unfold deleteVideo. rewrite Hv. cbn [fst with_videos with_fs fs].
  rewrite deleteVideoFiles_loop, take_ge by (simpl; lia).
  by apply remove_existing_gone.
Qed.

End DeleteFiles.

(** ** Deleting a video whose call is still running *)

Section DeleteDuringCall.

Variable config : StreamingConfig.
Variable cwd : string.

Lemma existsSync_false_not_directory (files : Fs.t) (p : string) :
  p ≠ EmptyString →
  Path.resolve cwd p ≠ [] →
  Fs.existsSync files cwd p = false →
  Fs.is_directory files (Path.resolve cwd p) = false.
Proof.
  intros Hp Hroot. unfold Fs.existsSync, Fs.is_directory.
  rewrite bool_decide_false by done.
  destruct (Path.resolve cwd p); [done|].
  by destruct (files !! _) as [[c|]|].
Qed.

(** X8: deleting a video does not cancel its call.  Right after the
    deletion the id is unknown and the call is still suspended.  When its
    awaited step then fails, the [catch] block registers the record again,
    as [Error]; when the encode ends well and the output directory is still
    there (the removals had failed before reaching it), the record is
    registered again as [Ready]; but after a complete deletion of a
    registered video the end of the encode finds the output directory gone:
    the master playlist cannot be written, the call never continues, and the
    id stays unknown. *)
Theorem delete_does_not_cancel (s : State) (i : nat) (j : Job) (completed : nat) :
  reachable config cwd s →
  jobs s !! i = Some j →
  let s' := (deleteVideo config cwd (job_videoId j) completed s).1 in
  registry_get s' (job_videoId j) = None ∧
  jobs s' !! i = Some j ∧
  (∀ now, ∃ v, registry_get (resume config cwd i Rejected now s') (job_videoId j) = Some v ∧
               Video.id v = job_videoId j ∧ Video.status v = Error) ∧
  (∀ probed now,
     job_at j = AwaitHLS →
     Fs.is_directory (fs s') (Path.resolve cwd (outputDir config (job_videoId j))) = true →
     ∃ v, registry_get (resume config cwd i (Resolved probed) now s') (job_videoId j)
          = Some v ∧
          Video.id v = job_videoId j ∧ Video.status v = Ready) ∧
  (∀ probed now,
     job_at j = AwaitHLS →
     is_Some (registry_get s (job_videoId j)) →
     (3 ≤ completed)%nat →
     Path.resolve cwd (outputDir config (job_videoId j)) ≠ [] →
     registry_get (resume config cwd i (Resolved probed) now s') (job_videoId j) = None ∧
     jobs (resume config cwd i (Resolved probed) now s') = delete i (jobs s) ∧
     heap (resume config cwd i (Resolved probed) now s') = heap s).
Proof.
  intros Hs Hj s'. apply reachable_well_formed in Hs as Hw.
  destruct Hw as [_ _ H3 _].
  rewrite Forall_lookup in H3. destruct (H3 i j Hj) as (v & Hv & Hid).
  destruct (deleteVideo_heap_jobs config cwd (job_videoId j) completed s)
    as [Hheap Hjobs].
  fold s' in Hheap, Hjobs.
  assert (registry_get s' (job_videoId j) = None) as Hgone
    by apply deleteVideo_unregisters.
  assert (jobs s' !! i = Some j) as Hj' by (by rewrite Hjobs).
  assert (heap s' !! job_video j = Some v) as Hv' by (by rewrite Hheap).
  split; [done|]. split; [done|]. split; [|split].
  - intros now. exists (resume_effect config now Rejected j v). split; [|split].
    + by apply resume_registry_end.
    + rewrite <- Hid. apply resume_effect_identity.
    + done.
  - intros probed now Hat Hdir.
    exists (resume_effect config now (Resolved probed) j v). split; [|split].
    + apply resume_registry_end; [done|done|by rewrite Hat|].
      rewrite stalls_spec, Hat. by rewrite Hdir.
    + rewrite <- Hid. apply resume_effect_identity.
    + unfold resume_effect. by rewrite Hat.
  - intros probed now Hat [video Hvideo] Hall Hroot.
    assert (Video.id video = job_videoId j) as Hvid.
    { apply reachable_well_formed in Hs.
      by destruct (registry_get_entry s _ _ Hs Hvideo) as (l & _ & _ & ?). }
    assert (Fs.is_directory (fs s') (Path.resolve cwd (outputDir config (job_videoId j)))
            = false) as Hnodir.
    { apply existsSync_false_not_directory; [apply outputDir_nonempty|done|].
      unfold s', deleteVideo. rewrite Hvideo. cbn [fst with_videos with_fs fs].
      rewrite deleteVideoFiles_loop, take_ge by (simpl; lia).
      apply remove_existing_gone. unfold video_paths, outputDir. rewrite Hvid.
      do 2 apply list_elem_of_further. apply list_elem_of_here. }
    assert (stalls config cwd (Resolved probed) j s' = true) as Hstall.
    { rewrite stalls_spec, Hat. by rewrite Hnodir. }
    rewrite (resume_stalled config cwd i j) by done.
    cbn [with_jobs heap jobs]. by rewrite Hjobs.
Qed.

End DeleteDuringCall.

(** ** A call that never continues *)

Section Stalled.

Variable config : StreamingConfig.
Variable cwd : string.

(** An object no call holds is not touched by any event. *)
Lemma step_orphan (e : Event) (s : State) (l : nat) (v : Video.t) :
  heap s !! l = Some v →
  l ∉ job_video <$> jobs s →
  heap (step config cwd e s) !! l = Some v ∧
  l ∉ job_video <$> jobs (step config cwd e s).
Proof.
  intros Hv Hfree.
  destruct e as [req uuid now|i o now|id completed|files]; cbn [step].
  - destruct (postUpload_cases config cwd req uuid now s) as [->| ->]; [done|].
    destruct (file req) as [f|] eqn:Hf.
    + destruct (multer_refuses f) eqn:Hm; [unfold upload; by rewrite Hf, Hm|].
      rewrite (upload_accepted config cwd req f) by done. cbn [fst uploaded heap jobs].
      split; [by apply lookup_app_l_Some|].
      rewrite fmap_app, not_elem_of_app. split; [done|].
      cbn. rewrite list_elem_of_singleton. apply lookup_lt_Some in Hv. lia.
    + unfold upload, uploadHandler. by rewrite Hf.
  - destruct (jobs s !! i) as [j|] eqn:Hj; [|by rewrite resume_absent].
    assert (job_video j ≠ l) as Hne.
    { intros <-. apply Hfree, list_elem_of_fmap_2. by eapply list_elem_of_lookup_2. }
    assert (l ∉ job_video <$> delete i (jobs s)) as Hdel.
    { intros Hin. apply Hfree. eapply elem_of_sublist; [exact Hin|].
      rewrite list_fmap_delete. apply sublist_delete. }
    destruct (stalls config cwd o j s) eqn:Hstall.
    { by rewrite (resume_stalled config cwd i j). }
    rewrite (resume_heap config cwd i j), (resume_jobs config cwd i j) by done.
    split; [by rewrite list_lookup_alter_ne|].
    destruct (resume_ends config o (job_at j)); [done|].
    rewrite list_fmap_insert. cbn [at_point job_video].
    rewrite list_insert_id; [done|]. by rewrite list_lookup_fmap, Hj.
  - destruct (deleteVideo_heap_jobs config cwd id completed s) as [-> ->]. done.
  - done.
Qed.

Lemma run_orphan (es : list Event) (s : State) (l : nat) (v : Video.t) :
  heap s !! l = Some v →
  l ∉ job_video <$> jobs s →
  heap (run config cwd es s) !! l = Some v.
Proof.
  revert s. induction es as [|e es IH]; intros s Hv Hfree; [done|].
  destruct (step_orphan e s l v Hv Hfree) as [Hv' Hfree'].
  by apply (IH (step config cwd e s)).
Qed.

(** C1, on the code: at every point between operations a registered record
    has its manifest reference ([streamingUrls]) set exactly when its status
    is [Ready], and whichever awaited step of [processVideo] rejects, the
    [catch] block leaves the record with status [Error] and no manifest
    reference.  But one failure does not reach the [catch] block: when the
    encoder ends well and the output directory is no longer there, the write
    of the master playlist throws inside the ['end'] listener, before
    [resolve()].  The call then never continues: the registry is as it was,
    the record keeps status [Processing] (not [Error]), no call holds it, and
    no later event changes it. *)
Theorem manifest_reference_iff_ready (s : State) :
  reachable config cwd s →
  (∀ id v, registry_get s id = Some v →
     (is_Some (Video.streamingUrls v) ↔ Video.status v = Ready)) ∧
  (∀ i j now, jobs s !! i = Some j →
     ∃ v, registry_get (resume config cwd i Rejected now s) (job_videoId j) = Some v ∧
          Video.status v = Error ∧ Video.streamingUrls v = None) ∧
  (∀ i j probed now,
     jobs s !! i = Some j →
     job_at j = AwaitHLS →
     Fs.is_directory (fs s) (Path.resolve cwd (outputDir config (job_videoId j))) = false →
     (∀ id, registry_get (resume config cwd i (Resolved probed) now s) id
            = registry_get s id) ∧
     ∃ v, heap s !! job_video j = Some v ∧
          Video.status v = Processing ∧ Video.streamingUrls v = None ∧
          (job_video j ∉ job_video <$> jobs (resume config cwd i (Resolved probed) now s)) ∧
          (∀ es, heap (run config cwd es (resume config cwd i (Resolved probed) now s))
                   !! job_video j = Some v)).
Proof.
  intros Hs%reachable_consistent. split; [|split].
  - intros id v Hv%registry_get_lookup.
    destruct Hs as [H1 _ _]. rewrite Forall_forall in H1. by apply H1.
  - intros i j now Hj.
    destruct (failure_marks_error config cwd i j now s Hs Hj) as (v & ? & ? & ? & _).
    by exists v.
  - intros i j probed now Hj Hat Hnodir.
    assert (stalls config cwd (Resolved probed) j s = true) as Hstall.
    { rewrite stalls_spec, Hat. by rewrite Hnodir. }
    rewrite (resume_stalled config cwd i j) by done.
    split; [done|].
    destruct Hs as [_ H2 H3]. rewrite Forall_lookup in H2.
    destruct (H2 i j Hj) as (v & Hv & Hst & Hu & _).
    assert (job_video j ∉ job_video <$> jobs (with_jobs (delete i (jobs s)) s)) as Hfree.
    { cbn [with_jobs jobs]. rewrite list_fmap_delete.
      apply NoDup_not_in_delete; [done|]. by rewrite list_lookup_fmap, Hj. }
    exists v. repeat split; try done.
    intros es. by apply run_orphan.
Qed.

End Stalled.

(** ** Uploads one after the other *)

Section Uploads.

Variable config : StreamingConfig.
Variable cwd : string.

Lemma videosDir_nonempty : videosDir config ≠ EmptyString.
Proof. by apply string_or_nonempty. Qed.

(** No number of uploads is refused or deferred: for every [n] some run
    has [n] calls in flight, with the queue still empty. *)
Lemma jobs_unbounded (n : nat) :
  ∃ s, reachable config cwd s ∧ length (jobs s) = n ∧ processingQueue s = [].
Proof.
  set (P := Path.resolve cwd (videosDir config)).
  assert (stored_at config cwd sample_file = P ++ ["3f2a-1700000000000.mp4"]) as Hat.
  { unfold stored_at. apply resolve_join_file; [apply videosDir_nonempty|].
    by repeat split. }
  assert (∃ s, reachable config cwd s ∧ length (jobs s) = n ∧ processingQueue s = [] ∧
               Fs.is_directory (fs s) P = true ∧
               Fs.is_directory (fs s) (P ++ ["3f2a-1700000000000.mp4"]) = false)
    as (s & ? & ? & ? & _); [|by exists s].
  induction n as [|n (s & Hs & Hn & Hq & Hdir & Hfile)].
  - exists (initial (<[P := Dir]> ∅)). split; [constructor|]. repeat split.
    + unfold Fs.is_directory. cbn [initial fs]. destruct P; [done|].
      by rewrite lookup_insert_eq.
    + unfold Fs.is_directory. cbn [initial fs].
      destruct (P ++ ["3f2a-1700000000000.mp4"]) as [|x l] eqn:E.
      { by destruct P. }
      rewrite <- E, lookup_insert_ne; [done|].
      intros Heq. apply (f_equal length) in Heq. rewrite length_app in Heq.
      simpl in Heq. lia.
  - exists (step config cwd (EUpload sample_request "v" 0) s).
    split; [by constructor|]. cbn [step].
    assert (postUpload config cwd sample_request "v" 0 s
            = upload config cwd sample_request "v" 0 s) as ->.
    { unfold postUpload. cbn [file sample_request].
      rewrite bool_decide_true by (vm_compute; apply list_elem_of_here).
      unfold Fs.write_error. by rewrite Hat, Hfile, dirname_snoc, Hdir. }
    destruct (upload_starts_job_unconditionally config cwd sample_request sample_file
                "v" 0 s eq_refl eq_refl) as [Hlen Hqueue].
    rewrite Hlen, Hqueue, Hn. split; [done|]. split; [done|].
    rewrite (upload_accepted config cwd sample_request sample_file) by done.
    cbn [fst uploaded fs]. unfold Fs.put. fold (stored_at config cwd sample_file).
    rewrite Hat. unfold Fs.is_directory in *.
    destruct (P ++ ["3f2a-1700000000000.mp4"]) as [|x l] eqn:E; [by destruct P|].
    rewrite lookup_insert_eq. split; [|done].
    destruct P as [|y P']; [done|]. rewrite lookup_insert_ne; [done|].
    rewrite <- E. intros Heq. apply (f_equal length) in Heq. rewrite length_app in Heq.
    simpl in Heq. lia.
Qed.

End Uploads.

(** ** Pages of the list route *)

Lemma listVideos_response (q : ListQuery) (s : State) :
  listVideos q s
  = Json 200
      (BList (js_slice (filter (matches q) (registry_values s))
                ((default 1 (q_page q) - 1) * default 10 (q_limit q))
                ((default 1 (q_page q) - 1) * default 10 (q_limit q)
                 + default 10 (q_limit q)))
         (default 1 (q_page q)) (default 10 (q_limit q))
         (Z.of_nat (length (filter (matches q) (registry_values s))))
         (ceil_div (Z.of_nat (length (filter (matches q) (registry_values s))))
            (default 10 (q_limit q)))).
Proof.
  assert (filter_by (q_status q) (λ v, status_string (Video.status v))
            (filter_by (q_userId q) Video.userId (registry_values s))
          = filter (matches q) (registry_values s)) as Hm.
  { rewrite !filter_by_matches, list_filter_filter.
    apply list_filter_iff. intros v. unfold matches. tauto. }
  unfold listVideos. by rewrite Hm.
Qed.





Lemma js_slice_to_zero {A} (l : list A) (start : Z) : js_slice l start 0 = [].
Proof.
  unfold js_slice. rewrite (bool_decide_false (0 < 0)) by lia.
  match goal with
  | |- take ?n _ = _ => replace n with 0%nat by (case_bool_decide; lia)
  end.
  done.
Qed.

(** X14: page 0 and page size 0 are not refused: either gives an empty
    page while the total still counts every matching record, and with page
    size 0 the page count is not a finite number. *)
Theorem degenerate_page_is_empty (q : ListQuery) (s : State) :
  q_page q = Some 0 ∨ q_limit q = Some 0 →
  listed_videos (listVideos q s) = [] ∧
  listed_total (listVideos q s)
  = Some (Z.of_nat (length (filter (matches q) (registry_values s)))) ∧
  (q_limit q = Some 0 → listed_pages (listVideos q s) = None).
Proof.
  intros Hq. rewrite listVideos_response. cbn [listed_videos listed_total listed_pages].
  split; [|split; [done|]].
  - destruct Hq as [-> | ->];
      match goal with
      | |- js_slice _ _ ?stop = [] =>
          replace stop with 0 by (cbn [from_option id]; lia); apply js_slice_to_zero
      end.
  - intros ->. done.
Qed.

(** X15: a negative page size is not refused either: on the first page,
    page size [-n] returns every matching record except the last [n], and the
    reported page count is zero or negative. *)
Theorem negative_limit_drops_tail (q : ListQuery) (s : State) (n : Z) :
  default 1 (q_page q) = 1 →
  q_limit q = Some (- n) →
  0 < n →
  listed_videos (listVideos q s)
  = take (length (filter (matches q) (registry_values s)) - Z.to_nat n)
      (filter (matches q) (registry_values s)) ∧
  ∃ pages, listed_pages (listVideos q s) = Some pages ∧ pages ≤ 0.
Proof.
  intros Hpage Hlimit Hn. rewrite listVideos_response.
  cbn [listed_videos listed_pages]. rewrite Hpage, Hlimit.
  change (default 10 (Some (- n))) with (- n).
  split.
  - match goal with
    | |- js_slice _ ?a ?b = _ => replace a with 0 by lia; replace b with (- n) by lia
    end.
    unfold js_slice.
    rewrite (bool_decide_false (0 < 0)) by lia.
    rewrite (bool_decide_true (- n < 0)) by lia.
    rewrite Z.min_l by lia. cbn [Z.to_nat drop]. f_equal. lia.
  - unfold ceil_div. rewrite bool_decide_false by lia. eexists. split; [done|].
    rewrite Z.div_opp_opp by lia.
    pose proof (Z.div_pos (Z.of_nat (length (filter (matches q) (registry_values s)))) n
                  ltac:(lia) Hn). lia.
Qed.

(** ** From the encode to the playlist route *)

Section Manifest.

Variable config : StreamingConfig.
Variable cwd : string.

(** X16: when the encode of a call succeeds with the output directory
    still in place, the playlist route at once serves, for that video, the
    master playlist generated from the configured tiers, as
    [application/vnd.apple.mpegurl], whatever the encoder itself had written
    to [playlist.m3u8]. *)
Theorem encoded_playlist_is_served (s : State) (i : nat) (j : Job) (probed : option Z)
    (now : Z) :
  reachable config cwd s →
  jobs s !! i = Some j →
  job_at j = AwaitHLS →
  fs s !! Path.resolve cwd (outputDir config (job_videoId j)) = Some Dir →
  fs s !! Path.resolve cwd (Path.join [outputDir config (job_videoId j); "playlist.m3u8"])
  ≠ Some Dir →
  getPlaylist config cwd (job_videoId j) (resume config cwd i (Resolved probed) now s)
  = SendFile "application/vnd.apple.mpegurl"
      (Path.resolve cwd (Path.join [chunksDir config; job_videoId j; "playlist.m3u8"])) ∧
  served_content (resume config cwd i (Resolved probed) now s)
    (getPlaylist config cwd (job_videoId j) (resume config cwd i (Resolved probed) now s))
  = Some (masterPlaylist (configured_qualities config)).
Proof.
  intros Hs%reachable_consistent Hj Hat Hdir%is_directory_lookup _.
  assert (∃ v, heap s !! job_video j = Some v) as [v Hv].
  { destruct Hs as [_ C2 _]. rewrite Forall_lookup in C2.
    destruct (C2 i j Hj) as (v & Hv & _). by exists v. }
  assert (resume_ends config (Resolved probed) (job_at j) = true) as Hend
    by (by rewrite Hat).
  assert (stalls config cwd (Resolved probed) j s = false) as Hstall.
  { rewrite stalls_spec, Hat. by rewrite Hdir. }
  pose proof (resume_registry_end config cwd i j (Resolved probed) now s v Hj Hv Hend
                Hstall) as Hreg.
  unfold resume_effect in Hreg. rewrite Hat in Hreg.
  assert (file_name "playlist.m3u8") as Hname by (by repeat split).
  destruct (join_file_name (chunksDir config) "playlist.m3u8" [job_videoId j]
              (chunksDir_nonempty config) Hname) as [Hne Htrail].
  cbn [app] in Hne, Htrail.
  assert (fs (resume config cwd i (Resolved probed) now s)
            !! Path.resolve cwd (Path.join [chunksDir config; job_videoId j; "playlist.m3u8"])
          = Some (File (masterPlaylist (configured_qualities config)))) as Hfile.
  { rewrite (resume_fs config cwd i j) by done. rewrite Hat.
    rewrite end_listener_spec, Hdir. cbn [default from_option id].
    unfold Fs.put, outputDir.
    rewrite resolve_join_nested by apply chunksDir_nonempty.
    apply lookup_insert_eq. }
  assert (getPlaylist config cwd (job_videoId j)
            (resume config cwd i (Resolved probed) now s)
          = SendFile "application/vnd.apple.mpegurl"
              (Path.resolve cwd
                 (Path.join [chunksDir config; job_videoId j; "playlist.m3u8"]))) as Hresp.
  { unfold getPlaylist. rewrite Hreg. cbn [not_ready finish_effect Video.status
      Video.set_updatedAt Video.set_thumbnailUrl Video.set_streamingUrls Video.set_status].
    rewrite bool_decide_true by done. cbn [negb].
    unfold Fs.existsSync. rewrite bool_decide_false by done.
    by rewrite Hfile, Htrail. }
  split; [exact Hresp|]. rewrite Hresp. cbn [served_content].
  unfold Fs.sendFile, Fs.read. rewrite Hfile.
  by rewrite playlist_path, hidden_snoc.
Qed.

(** X17: the segment route makes no check on the name it is given: asked
    for [playlist.m3u8] it sends the very file the playlist route sends,
    typed as an MPEG-TS segment. *)
Theorem segment_route_serves_playlist (id : string) (s : State) (ct : string)
    (p : list string) :
  getPlaylist config cwd id s = SendFile ct p →
  getSegment config cwd id "playlist.m3u8" s = SendFile "video/MP2T" p ∧
  served_content s (getSegment config cwd id "playlist.m3u8" s)
  = served_content s (getPlaylist config cwd id s).
Proof.
  unfold getPlaylist, getSegment.
  destruct (not_ready (registry_get s id)); [done|].
  destruct (Fs.existsSync (fs s) cwd
              (Path.join [chunksDir config; id; "playlist.m3u8"])); [|done].
  cbn [negb]. by intros [= <- <-].
Qed.

End Manifest.

(** ** The further properties on the sample runs *)

Lemma sample_pair_reachable : reachable defaultStreaming sample_cwd sample_pair.
Proof. apply reachable_run, reachable_initial. Qed.

Lemma sample_probing_reachable : reachable sample_no_hls sample_cwd sample_probing.
Proof. apply reachable_run, reachable_initial. Qed.

Lemma step_leaves_other_records_witness :
  registry_get (step defaultStreaming sample_cwd (EResume 0 Rejected 300) sample_pair) "b"
  = registry_get sample_pair "b".
Proof.
  apply (step_leaves_other_records defaultStreaming sample_cwd (EResume 0 Rejected 300)
           sample_pair "b").
  - exact sample_pair_reachable.
  - vm_compute. discriminate.
Defined.

Lemma registry_ids_unique_witness :
  (∀ id v, registry_get sample_burst id = Some v → Video.id v = id) ∧
  NoDup (Video.id <$> registry_values sample_burst) ∧
  length (registry_values sample_burst) = length (videos sample_burst).
Proof.
  apply (registry_ids_unique defaultStreaming sample_cwd sample_burst).
  exact sample_burst_reachable.
Defined.

Lemma registered_record_shape_witness :
  Video.status sample_ready_record ≠ Uploading ∧
  (Video.status sample_ready_record = Ready →
     Video.streamingUrls sample_ready_record
     = Some {| hls := Some ("/streaming/stream/" +:+ "a" +:+ "/playlist.m3u8");
               dash := None |} ∧
     Video.thumbnailUrl sample_ready_record = Some ("/streaming/thumbnails/" +:+ "a")) ∧
  (Video.status sample_ready_record ≠ Ready →
     Video.streamingUrls sample_ready_record = None ∧
     Video.thumbnailUrl sample_ready_record = None).
Proof.
  apply (registered_record_shape defaultStreaming sample_cwd sample_ready "a"
           sample_ready_record).
  - exact sample_ready_reachable.
  - vm_compute. reflexivity.
Defined.

Lemma record_lifecycle_witness :
  ∃ v', heap (run defaultStreaming sample_cwd
                [EDelete "a" 3; EUpload sample_request "a" 500] sample_ready) !! 0%nat
        = Some v' ∧
        same_identity sample_ready_record v' ∧
        (terminal sample_ready_record → v' = sample_ready_record).
Proof.
  apply (record_lifecycle defaultStreaming sample_cwd
           [EDelete "a" 3; EUpload sample_request "a" 500] sample_ready 0
           sample_ready_record).
  - exact sample_ready_reachable.
  - vm_compute. reflexivity.
Defined.

Lemma upload_then_getVideo_witness :
  ∃ v, getVideo "a" (upload defaultStreaming sample_cwd sample_request "a" 100
                       (initial ∅)).1 = Json 200 (BVideo v) ∧
       Video.id v = "a" ∧ Video.status v = Processing ∧
       Video.streamingUrls v = None ∧ Video.thumbnailUrl v = None ∧
       Video.filename v = "3f2a-1700000000000.mp4" ∧ Video.size v = 1000 ∧
       Video.createdAt v = 100 ∧ Video.title v = "cat.mp4" ∧ Video.userId v = "alice".
Proof.
  apply (upload_then_getVideo defaultStreaming sample_cwd sample_request sample_file
           "a" 100 (initial ∅)).
  - reflexivity.
  - vm_compute. reflexivity.
Defined.

Lemma segment_without_dotdot_stays_inside_witness :
  getSegment defaultStreaming sample_cwd "a" "segment_000.ts" sample_ready
  = SendFile "video/MP2T" ["srv"; "app"; "uploads"; "chunks"; "a"; "segment_000.ts"] ∧
  served_content sample_ready
    (getSegment defaultStreaming sample_cwd "a" "segment_000.ts" sample_ready)
  = Some "TS0" ∧
  Path.resolve sample_cwd (outputDir defaultStreaming "a")
    `prefix_of` ["srv"; "app"; "uploads"; "chunks"; "a"; "segment_000.ts"].
Proof.
  destruct (segment_without_dotdot_stays_inside defaultStreaming sample_cwd sample_ready
              "a" "segment_000.ts") as (_ & Hserved & _ & _ & Hinside).
  destruct (Hserved "TS0") as [Hresp Hbytes].
  - vm_compute. reflexivity.
  - vm_compute. reflexivity.
  - vm_compute. reflexivity.
  - vm_compute. repeat constructor.
  - split; [exact Hresp|]. split; [exact Hbytes|].
    apply Hinside. vm_compute. intros H. apply list_elem_of_singleton in H. discriminate.
Defined.

Lemma sample_stalled_job :
  jobs (step defaultStreaming sample_cwd
          (EExternal (Fs.remove (fs sample_encoding) sample_cwd "uploads/chunks/a"))
          sample_encoding) !! 0%nat
  = Some (sample_job AwaitHLS).
Proof. vm_compute. reflexivity. Qed.

Lemma manifest_reference_iff_ready_witness :
  (∀ id, registry_get sample_stalled id
         = registry_get
             (step defaultStreaming sample_cwd
                (EExternal (Fs.remove (fs sample_encoding) sample_cwd "uploads/chunks/a"))
                sample_encoding) id) ∧
  (∃ v, registry_get sample_stalled "a" = Some v ∧
        Video.status v = Processing ∧ Video.streamingUrls v = None ∧
        jobs sample_stalled = [] ∧
        ∀ es, heap (run defaultStreaming sample_cwd es sample_stalled) !! 0%nat = Some v) ∧
  (∃ v, Video.status v = Processing ∧
        ∀ es, heap (run defaultStreaming sample_cwd
                      (EDelete "a" 3 :: EResume 0 (Resolved None) 104 :: es)
                      sample_encoding) !! 0%nat = Some v).
Proof.
  split; [|split].
  - destruct (manifest_reference_iff_ready defaultStreaming sample_cwd _
                (reachable_step defaultStreaming sample_cwd
                   (EExternal (Fs.remove (fs sample_encoding) sample_cwd "uploads/chunks/a"))
                   sample_encoding sample_encoding_reachable)) as (_ & _ & Hstall).
    destruct (Hstall 0%nat (sample_job AwaitHLS) None 104 sample_stalled_job eq_refl)
      as (Hreg & _).
    { vm_compute. reflexivity. }
    exact Hreg.
  - destruct (manifest_reference_iff_ready defaultStreaming sample_cwd _
                (reachable_step defaultStreaming sample_cwd
                   (EExternal (Fs.remove (fs sample_encoding) sample_cwd "uploads/chunks/a"))
                   sample_encoding sample_encoding_reachable)) as (_ & _ & Hstall).
    destruct (Hstall 0%nat (sample_job AwaitHLS) None 104 sample_stalled_job eq_refl)
      as (_ & v & Hv & Hst & Hu & _ & Hfrozen).
    { vm_compute. reflexivity. }
    exists v. split; [|split; [exact Hst|split; [exact Hu|split; [|exact Hfrozen]]]].
    + rewrite <- Hv. vm_compute. reflexivity.
    + vm_compute. reflexivity.
  - destruct (manifest_reference_iff_ready defaultStreaming sample_cwd _
                (reachable_step defaultStreaming sample_cwd (EDelete "a" 3)
                   sample_encoding sample_encoding_reachable)) as (_ & _ & Hstall).
    destruct (Hstall 0%nat (sample_job AwaitHLS) None 104)
      as (_ & v & _ & Hst & _ & _ & Hfrozen).
    { vm_compute. reflexivity. }
    { reflexivity. }
    { vm_compute. reflexivity. }
    exists v. split; [exact Hst|]. intros es. exact (Hfrozen es).
Defined.

Lemma delete_does_not_cancel_witness :
  let s' := (deleteVideo defaultStreaming sample_cwd "a" 3 sample_encoding).1 in
  registry_get s' "a" = None ∧
  (∃ v, registry_get (resume defaultStreaming sample_cwd 0 Rejected 104 s') "a" = Some v ∧
        Video.id v = "a" ∧ Video.status v = Error) ∧
  registry_get (resume defaultStreaming sample_cwd 0 (Resolved None) 104 s') "a" = None ∧
  jobs (resume defaultStreaming sample_cwd 0 (Resolved None) 104 s')
  = delete 0%nat (jobs sample_encoding) ∧
  heap (resume defaultStreaming sample_cwd 0 (Resolved None) 104 s') = heap sample_encoding.
Proof.
  assert (jobs sample_encoding !! 0%nat = Some (sample_job AwaitHLS)) as Hj
    by (vm_compute; reflexivity).
  destruct (delete_does_not_cancel defaultStreaming sample_cwd sample_encoding 0
              (sample_job AwaitHLS) 3 sample_encoding_reachable Hj)
    as (H1 & _ & H3 & _ & H5).
  intros s'. split; [exact H1|]. split; [exact (H3 104)|].
  apply (H5 None 104).
  - reflexivity.
  - vm_compute. by eexists.
  - lia.
  - vm_compute. discriminate.
Defined.


Lemma ready_without_hls_witness :
  fs (resume sample_no_hls sample_cwd 0 (Resolved (Some 10)) 103 sample_probing)
  = fs sample_probing ∧
  (∃ v, registry_get (resume sample_no_hls sample_cwd 0 (Resolved (Some 10)) 103
                        sample_probing) "a" = Some v ∧
        Video.status v = Ready ∧
        Video.streamingUrls v
        = Some {| hls := Some ("/streaming/stream/" +:+ "a" +:+ "/playlist.m3u8");
                  dash := None |}) ∧
  (Fs.existsSync (fs sample_probing) sample_cwd
     (Path.join [chunksDir sample_no_hls; "a"; "playlist.m3u8"]) = false →
   getPlaylist sample_no_hls sample_cwd "a"
     (resume sample_no_hls sample_cwd 0 (Resolved (Some 10)) 103 sample_probing)
   = Json 404 (BError "Playlist not found")).
Proof.
  apply (ready_without_hls sample_no_hls sample_cwd sample_probing 0
           (sample_job AwaitMetadata) (Some 10) 103).
  - exact sample_probing_reachable.
  - vm_compute. reflexivity.
  - vm_compute. reflexivity.
  - reflexivity.
Defined.

Lemma delete_touches_only_own_files_witness :
  fs (deleteVideo defaultStreaming sample_cwd "a" 3 sample_ready).1
    !! ["srv"; "app"; "uploads"; "chunks"]
  = fs sample_ready !! ["srv"; "app"; "uploads"; "chunks"] ∧
  ∀ k' n, fs (deleteVideo defaultStreaming sample_cwd "a" 3 sample_ready).1 !! k' = Some n →
          fs sample_ready !! k' = Some n.
Proof.
  apply (delete_touches_only_own_files defaultStreaming sample_cwd "a" 3 sample_ready
           sample_ready_record ["srv"; "app"; "uploads"; "chunks"]).
  - vm_compute. reflexivity.
  - intros p Hp. unfold video_paths in Hp.
    rewrite !elem_of_cons, elem_of_nil in Hp.
    destruct Hp as [->|[->|[->|[]]]]; vm_compute; intros [k Hk]; discriminate.
Defined.

Lemma delete_removes_own_files_witness :
  Fs.existsSync (fs (deleteVideo defaultStreaming sample_cwd "a" 3 sample_ready).1)
    sample_cwd (Path.join [chunksDir defaultStreaming; "a"]) = false.
Proof.
  apply (delete_removes_own_files defaultStreaming sample_cwd "a" 3 sample_ready
           sample_ready_record (Path.join [chunksDir defaultStreaming; "a"])).
  - vm_compute. reflexivity.
  - lia.
  - unfold video_paths. do 2 apply list_elem_of_further. apply list_elem_of_here.
Defined.


Lemma degenerate_page_is_empty_witness :
  listed_videos (listVideos limit_zero sample_burst) = [] ∧
  listed_total (listVideos limit_zero sample_burst)
  = Some (Z.of_nat (length (filter (matches limit_zero) (registry_values sample_burst)))) ∧
  (q_limit limit_zero = Some 0 → listed_pages (listVideos limit_zero sample_burst) = None).
Proof.
  apply (degenerate_page_is_empty limit_zero sample_burst). right. reflexivity.
Defined.

Lemma negative_limit_drops_tail_witness :
  listed_videos (listVideos limit_minus_one sample_burst)
  = take (length (filter (matches limit_minus_one) (registry_values sample_burst))
          - Z.to_nat 1)
      (filter (matches limit_minus_one) (registry_values sample_burst)) ∧
  ∃ pages, listed_pages (listVideos limit_minus_one sample_burst) = Some pages ∧ pages ≤ 0.
Proof.
  apply (negative_limit_drops_tail limit_minus_one sample_burst 1).
  - reflexivity.
  - reflexivity.
  - lia.
Defined.

Lemma encoded_playlist_is_served_witness :
  getPlaylist defaultStreaming sample_cwd "a"
    (resume defaultStreaming sample_cwd 0 (Resolved None) 104 sample_encoding)
  = SendFile "application/vnd.apple.mpegurl"
      (Path.resolve sample_cwd
         (Path.join [chunksDir defaultStreaming; "a"; "playlist.m3u8"])) ∧
  served_content (resume defaultStreaming sample_cwd 0 (Resolved None) 104 sample_encoding)
    (getPlaylist defaultStreaming sample_cwd "a"
       (resume defaultStreaming sample_cwd 0 (Resolved None) 104 sample_encoding))
  = Some (masterPlaylist (configured_qualities defaultStreaming)).
Proof.
  apply (encoded_playlist_is_served defaultStreaming sample_cwd sample_encoding 0
           (sample_job AwaitHLS) None 104).
  - exact sample_encoding_reachable.
  - vm_compute. reflexivity.
  - reflexivity.
  - vm_compute. reflexivity.
  - vm_compute. discriminate.
Defined.

Lemma segment_route_serves_playlist_witness :
  getSegment defaultStreaming sample_cwd "a" "playlist.m3u8" sample_ready
  = SendFile "video/MP2T" ["srv"; "app"; "uploads"; "chunks"; "a"; "playlist.m3u8"] ∧
  served_content sample_ready
    (getSegment defaultStreaming sample_cwd "a" "playlist.m3u8" sample_ready)
  = served_content sample_ready (getPlaylist defaultStreaming sample_cwd "a" sample_ready).
Proof.
  apply (segment_route_serves_playlist defaultStreaming sample_cwd "a" sample_ready
           "application/vnd.apple.mpegurl").
  vm_compute. reflexivity.
Defined.
